(** * mediadevices: fitness distance of media properties and the track
    processing loops

    A shallow embedding of [pkg/prop/prop.go] (the fitness distance between
    two [Media] property sets) and of [track.go] (track construction, the
    video and audio processing loops, [Stop], [OnEnded]).

    Conventions.
    - Go's [int] and [time.Duration] are 64-bit; their values are carried as
      [Z].  The only integer arithmetic of the embedded code that can wrap is
      [2*e.RequiredSize], which is written with its wrap-around.
    - Go's [float64] is IEEE 754 binary64: it is [spec_float] with the
      operations of the Standard Library's bit-level specification at
      precision 53 and maximal exponent 1024 (one NaN, no payload).
    - A [map[string]string] is a [gmap string string]; the order in which
      [range] visits it is not fixed by Go and is a parameter ([MapRange]).
    - [strconv.ParseFloat] belongs to Go's library and is a parameter
      ([Strconv]); [ParseFloat_int] is its decimal-integer fragment. *)

From Stdlib Require Import ZArith Lia Bool Ascii String.
From Stdlib Require Strings.Byte.
From Stdlib Require Import SpecFloat.
From stdpp Require Import base option list strings pretty gmap.

Local Open Scope Z_scope.

(* ================================================================== *)
(** * Part I. Definitions                                              *)
(* ================================================================== *)

(** ** Go's float64 *)

Module Float64.

Definition float64 : Type := spec_float.

Definition prec : Z := 53.
Definition emax : Z := 1024.

Definition add : float64 -> float64 -> float64 := SFadd prec emax.
Definition sub : float64 -> float64 -> float64 := SFsub prec emax.
Definition mul : float64 -> float64 -> float64 := SFmul prec emax.
Definition div : float64 -> float64 -> float64 := SFdiv prec emax.
Definition eqb : float64 -> float64 -> bool := SFeqb.
Definition ltb : float64 -> float64 -> bool := SFltb.

Definition zero : float64 := S754_zero false.
Definition one : float64 := Eval vm_compute in binary_normalize prec emax 1 0 false.
Definition NaN : float64 := S754_nan.

(** [float64(n)] for an integer [n]: the nearest binary64 value. *)
Definition of_int (n : Z) : float64 := binary_normalize prec emax n 0 false.

(** [math.Abs]. *)
Definition Abs (x : float64) : float64 := SFabs x.

(** [math.Inf(sign)], [math.IsInf(f, 1)], [math.IsNaN], [math.Signbit]. *)
Definition Inf (sign : Z) : float64 := S754_infinity (sign <? 0).
Definition IsPosInf (f : float64) : bool :=
  match f with S754_infinity false => true | _ => false end.
Definition IsNaN (f : float64) : bool :=
  match f with S754_nan => true | _ => false end.
Definition Signbit (f : float64) : bool :=
  match f with
  | S754_zero s | S754_infinity s | S754_finite s _ _ => s
  | S754_nan => false
  end.

(** [math.Max], with its special cases in the order of the Go source:
    [Max(x, +Inf) = Max(+Inf, x) = +Inf], [Max(x, NaN) = Max(NaN, x) = NaN],
    [Max(+0, ±0) = Max(±0, +0) = +0], [Max(-0, -0) = -0]. *)
Definition Max (x y : float64) : float64 :=
  if IsPosInf x || IsPosInf y then Inf 1
  else if IsNaN x || IsNaN y then NaN
  else if eqb x zero && eqb x y then (if Signbit x then y else x)
  else if ltb y x then x
  else y.

(** A value that is neither NaN nor infinite. *)
Definition is_finite (f : float64) : bool :=
  match f with S754_zero _ | S754_finite _ _ _ => true | _ => false end.

(** The values Go can hold: canonical mantissa and exponent. *)
Definition valid (f : float64) : bool := valid_binary prec emax f.

(** The number of binary digits of a mantissa. *)
Definition dig (m : positive) : Z := Z.pos (digits2_pos m).

End Float64.

Import Float64.

(** ** fmt.Sprint and time.Duration.String *)

Module fmt.

(** [fmt.Sprint] of an [int]: its decimal digits, ["-"] first when
    negative. *)
Definition Sprint_int (n : Z) : string := pretty n.

(** [fmt.Sprint] of a [frame.Format], a string type: the string itself. *)
Definition Sprint_string (s : string) : string := s.

End fmt.

Module time.

Definition Duration : Type := Z.

Definition Nanosecond : Duration := 1.
Definition Microsecond : Duration := 1000 * Nanosecond.
Definition Millisecond : Duration := 1000 * Microsecond.
Definition Second : Duration := 1000 * Millisecond.

Definition digit_char (d : Z) : ascii := ascii_of_nat (Z.to_nat (48 + d)).

(** [fmtFrac]: the fraction of [v/10^prec] in front of [buf], trailing
    zeros and then the point left out; returns the text and [v/10^prec]. *)
Fixpoint fmtFrac (buf : string) (v : Z) (print : bool) (prec : nat) : string * Z :=
  match prec with
  | O => ((if print then String "."%char buf else buf), v)
  | S prec' =>
      let digit := v mod 10 in
      let print := print || negb (digit =? 0) in
      fmtFrac (if print then String (digit_char digit) buf else buf)
              (v / 10) print prec'
  end.

(** [fmtInt]: the decimal digits of [v] in front of [buf]. *)
Definition fmtInt (buf : string) (v : Z) : string := pretty (Z.to_N v) +:+ buf.

(** [Duration.String]: ["0s"], a sub-second value in ns, µs or ms, and
    otherwise hours, minutes and seconds as in ["1h2m3.5s"]. *)
Definition String_ (d : Duration) : string :=
  let u := Z.abs d in
  let neg := d <? 0 in
  let w :=
    if u <? Second then
      if u =? 0 then "0s"
      else if u <? Microsecond then
        let '(w, u) := fmtFrac "ns" u false 0 in fmtInt w u
      else if u <? Millisecond then
        (* U+00B5 is the two bytes 0xC2 0xB5 *)
        let micro := String (ascii_of_nat 194) (String (ascii_of_nat 181) "s") in
        let '(w, u) := fmtFrac micro u false 3 in fmtInt w u
      else
        let '(w, u) := fmtFrac "ms" u false 6 in fmtInt w u
    else
      let '(w, u) := fmtFrac "s" u false 9 in
      (* u is now integer seconds *)
      let w := fmtInt w (u mod 60) in
      let u := u / 60 in
      (* u is now integer minutes *)
      if 0 <? u then
        let w := fmtInt (String "m"%char w) (u mod 60) in
        let u := u / 60 in
        (* u is now integer hours *)
        if 0 <? u then fmtInt (String "h"%char w) u else w
      else w
  in
  if neg then String "-"%char w else w.

(** [Duration.Seconds]: the whole seconds plus the remaining nanoseconds
    over [1e9], both as float64.  Go's [/] and [%] truncate towards zero. *)
Definition Seconds (d : Duration) : float64 :=
  let sec := Z.quot d Second in
  let nsec := Z.rem d Second in
  add (of_int sec) (div (of_int nsec) (of_int 1000000000)).

End time.

(** ** What a Go call can end in *)

(** A call returns or panics; a panic carries its message. *)
Inductive outcome (A : Type) : Type :=
  | Return (a : A)
  | Panic (msg : string).
Arguments Return {A} a.
Arguments Panic {A} msg.

(** ** strconv.ParseFloat and the order of a range over a map *)

(** [strconv.ParseFloat(s, 64)]: [Some f] when the error is nil. *)
Class Strconv := { ParseFloat : string -> option float64 }.

(** [for k, v := range c] visits every entry of the map once, in an order
    Go leaves open. *)
Class MapRange := {
  range : gmap string string -> list (string * string);
  range_perm : forall c, range c ≡ₚ map_to_list c
}.

(** The order of stdpp's [map_to_list] is one such order. *)
Definition MapRange_to_list : MapRange :=
  {| range := map_to_list; range_perm := fun c => reflexivity _ |}.

Module strconv.

(** The value of a string of decimal digits, [None] when another byte
    occurs. *)
Fixpoint digits_value (acc : Z) (s : string) : option Z :=
  match s with
  | EmptyString => Some acc
  | String c s' =>
      let n := Z.of_nat (nat_of_ascii c) in
      if (48 <=? n) && (n <=? 57)
      then digits_value (10 * acc + (n - 48)) s'
      else None
  end.

(** The decimal-integer fragment of [strconv.ParseFloat]: an optional sign
    and one or more decimal digits, rounded to the nearest binary64 value;
    a value that rounds to an infinity is a range error.  The other float
    syntaxes (fraction, exponent, hexadecimal, [inf], [nan]) are outside
    the fragment and answered as errors here. *)
Definition ParseFloat_int (s : string) : option float64 :=
  let '(neg, body) :=
    match s with
    | String "-"%char r => (true, r)
    | String "+"%char r => (false, r)
    | _ => (false, s)
    end in
  match body with
  | EmptyString => None
  | _ =>
      match digits_value 0 body with
      | Some n =>
          match binary_normalize prec emax (if neg then - n else n) 0 neg with
          | S754_infinity _ => None
          | f => Some f
          end
      | None => None
      end
  end.

Definition Strconv_int : Strconv := {| ParseFloat := ParseFloat_int |}.

End strconv.

(** ** pkg/prop/prop.go *)

Module prop.

(** [Video] represents a video's properties. *)
Record Video := {
  Width : Z;
  Height : Z;
  FrameRate : spec_float;   (* float32, never read by this package *)
  FrameFormat : string      (* frame.Format, a string type *)
}.

(** [Audio] represents an audio's properties. *)
Record Audio := {
  ChannelCount : Z;
  Latency : time.Duration;
  SampleRate : Z;
  SampleSize : Z
}.

(** [Codec] represents a codec's encoding properties. *)
Record Codec := {
  CodecName : string;
  BitRate : Z;
  Quality : Z;
  KeyFrameInterval : Z
}.

(** [Media] embeds [Video], [Audio] and [Codec]. *)
Record Media := {
  DeviceID : string;
  Media_Video : Video;
  Media_Audio : Audio;
  Media_Codec : Codec
}.
Coercion Media_Video : Media >-> Video.
Coercion Media_Audio : Media >-> Audio.
Coercion Media_Codec : Media >-> Codec.

(** The values [add] receives as [interface{}], and [fmt.Sprint] of
    them. *)
Inductive value :=
  | VInt (n : Z)
  | VFormat (f : string)
  | VDuration (d : time.Duration).

Definition Sprint (v : value) : string :=
  match v with
  | VInt n => fmt.Sprint_int n
  | VFormat f => fmt.Sprint_string f
  | VDuration d => time.String_ d
  end.

(** [type comparisons map[string]string] *)
Abbreviation comparisons := (gmap string string).

(** [c[fmt.Sprint(actual)] = fmt.Sprint(ideal)] *)
Definition add (c : comparisons) (actual ideal : value) : comparisons :=
  <[Sprint actual := Sprint ideal]> c.

Section fitness.
Context `{Strconv} `{MapRange}.

(** What one numeric pair adds to the distance. *)
Definition normalized (actualF idealF : float64) : float64 :=
  div (Abs (sub actualF idealF)) (Max (Abs actualF) (Abs idealF)).

(** One turn of the loop of [fitnessDistance] on the entry
    [actual -> ideal], from the distance [dist] so far. *)
Definition visit (dist : float64) (entry : string * string) : outcome float64 :=
  let '(actual, ideal) := entry in
  if String.eqb actual ideal then Return dist
  else
    match ParseFloat actual, ParseFloat ideal with
    | Some actualF, Some idealF =>
        (* both numeric: normalize the values to get the distance *)
        Return (Float64.add dist (normalized actualF idealF))
    | None, None =>
        (* both not numeric: 0 (matched) or 1 (not matched) *)
        if negb (String.eqb actual ideal) then Return (Float64.add dist one)
        else Return dist
    | _, _ =>
        Panic "fitnessDistance can't mix comparisons."
    end.

Fixpoint visit_all (dist : float64) (entries : list (string * string))
  : outcome float64 :=
  match entries with
  | [] => Return dist
  | entry :: rest =>
      match visit dist entry with
      | Return dist' => visit_all dist' rest
      | Panic msg => Panic msg
      end
  end.

(** [func (c comparisons) fitnessDistance() float64] *)
Definition fitnessDistance (c : comparisons) : outcome float64 :=
  visit_all zero (range c).

(** The map [FitnessDistance] builds before it calls
    [fitnessDistance]. *)
Definition Media_comparisons (p o : Media) : comparisons :=
  let cmps : comparisons := ∅ in
  let cmps := add cmps (VInt (Width p)) (VInt (Width o)) in
  let cmps := add cmps (VInt (Height p)) (VInt (Height o)) in
  let cmps := add cmps (VFormat (FrameFormat p)) (VFormat (FrameFormat o)) in
  let cmps := add cmps (VInt (SampleRate p)) (VInt (SampleRate o)) in
  let cmps := add cmps (VDuration (Latency p)) (VDuration (Latency o)) in
  cmps.

(** [func (p *Media) FitnessDistance(o Media) float64] *)
Definition FitnessDistance (p o : Media) : outcome float64 :=
  fitnessDistance (Media_comparisons p o).

End fitness.

End prop.

(** ** track.go *)

Module mediadevices.

(** *** Errors, samples, codecs *)

(** The [error] values the loops tell apart: [io.EOF], a
    [*mio.InsufficientBufferError] with its [RequiredSize], and any other
    error, by its message. *)
Inductive error :=
  | EOF
  | InsufficientBufferError (RequiredSize : Z)
  | errorString (msg : string).

(** [media.Sample] *)
Record Sample := { Data : list Byte.byte; Samples : Z }.

(** [webrtc.RTPCodec], the fields [newTrack] reads. *)
Inductive RTPCodecType := RTPCodecTypeAudio | RTPCodecTypeVideo.

Definition RTPCodecType_String (t : RTPCodecType) : string :=
  match t with
  | RTPCodecTypeAudio => "audio"
  | RTPCodecTypeVideo => "video"
  end.

Record RTPCodec := {
  Name : string;
  PayloadType : Z;
  Type_ : RTPCodecType
}.

(** A failure callback, a [func(error)], by its identity. *)
Definition handler : Type := nat.

(** *** Integers and slices *)

(** Go's [int] is 64 bits wide; arithmetic wraps. *)
Definition wrap_int (z : Z) : Z := (z + 2 ^ 63) mod 2 ^ 64 - 2 ^ 63.

(** The largest slice the runtime allocates (linux/amd64). *)
Definition maxAlloc : Z := 2 ^ 48.

(** [make([]byte, n)]: [n] zero bytes; a negative or too large [n]
    panics. *)
Definition make_bytes (n : Z) : outcome (list Byte.byte) :=
  if (n <? 0) || (maxAlloc <? n)
  then Panic "makeslice: len out of range"
  else Return (replicate (Z.to_nat n) Byte.x00).

(** [buff[:n]] on a slice whose capacity is its length. *)
Definition slice_to (buff : list Byte.byte) (n : Z) : outcome (list Byte.byte) :=
  if (n <? 0) || (Z.of_nat (length buff) <? n)
  then Panic "slice bounds out of range"
  else Return (take (Z.to_nat n) buff).

(** [uint32(f)] for a float64: the integer part when it fits; Go leaves
    the result implementation-dependent otherwise ([out_of_range]). *)
Definition uint32_of_float64 (out_of_range : float64 -> Z) (f : float64) : Z :=
  match f with
  | S754_zero _ => 0
  | S754_finite s m e =>
      let t := if 0 <=? e then Z.pos m * 2 ^ e else Z.quot (Z.pos m) (2 ^ (- e)) in
      let t := if s then - t else t in
      if (0 <=? t) && (t <? 2 ^ 32) then t else out_of_range f
  | _ => out_of_range f
  end.

(** *** What a track talks to *)

(** The collaborators of a track, as operations on one state [W] of the
    outside: the [driver.Driver] with its recorder, the encoder builders of
    [pkg/codec], the encoder (an [io.ReadCloser]), the [LocalTrack] and the
    track generator.  An operation returns its Go results and the next
    state; [Encoder_Read buff] returns the buffer as the encoder left it
    and the count [n]. *)
Class Devices (W : Type) := {
  Driver_ID : W -> string;
  Driver_Open : W -> option error * W;
  Driver_Close : W -> option error * W;
  Driver_VideoRecord : prop.Media -> W -> option error * W;
  Driver_AudioRecord : prop.Media -> W -> option error * W;
  BuildVideoEncoder : prop.Media -> W -> option error * W;
  BuildAudioEncoder : prop.Media -> W -> option error * W;
  Encoder_Read : list Byte.byte -> W -> (list Byte.byte * Z * option error) * W;
  Encoder_Close : W -> option error * W;
  LocalTrack_WriteSample : Sample -> W -> option error * W;
  trackGenerator : Z -> Z -> string -> string -> RTPCodec -> W -> option error * W;
  rand_Uint32 : W -> Z * W;
  (** the sample count the sampler derives from its clock *)
  sampler_samples : W -> Z * W;
  (** what [uint32] of an out-of-range float64 gives on this platform *)
  uint32_out_of_range : float64 -> Z
}.

(** [MediaTrackConstraints]: it embeds [prop.Media]; the transforms wrap
    the raw reader. *)
Record MediaTrackConstraints (W : Type) := {
  Media_ : prop.Media;
  Enabled : bool;
  VideoTransform : option (W -> W);
  AudioTransform : option (W -> W)
}.
Arguments Media_ {W} _.
Arguments Enabled {W} _.
Arguments VideoTransform {W} _.
Arguments AudioTransform {W} _.

(** [MediaDevicesOptions]: the registered codecs, by kind (its track
    generator is among the [Devices]). *)
Record MediaDevicesOptions := { codecs : RTPCodecType -> list RTPCodec }.

(** What the track did to the outside, oldest first. *)
Inductive event :=
  | EvOpen (err : option error)
  | EvClose
  | EvRecord (err : option error)
  | EvBuildEncoder (err : option error)
  | EvRead (len : nat) (n : Z) (err : option error)
  | EvEncoderClose
  | EvWriteSample (s : Sample) (err : option error)
  | EvCallback (h : handler) (err : error).

(** The goroutine of [start]: not launched, in its loop with the local
    [buff], returned after it reported [err], or panicked. *)
Inductive goroutine :=
  | NotStarted
  | Running (buff : list Byte.byte)
  | Returned (err : error)
  | Panicked (msg : string).

Inductive kind := VideoTrack | AudioTrack.

(** A [videoTrack] or [audioTrack] with what it owns: the outside [world]
    ([d], [encoder], [t]), the callback slot [onErrorHandler] (an
    [atomic.Value]), the [constraints], the goroutine of [start] and the
    local [sampleSize] of the audio loop; [trace] records the calls
    made. *)
Record track (W : Type) := {
  track_kind : kind;
  world : W;
  onErrorHandler : option handler;
  constraints : MediaTrackConstraints W;
  loop : goroutine;
  sampleSize : Z;
  trace : list event
}.
Arguments track_kind {W} _.
Arguments world {W} _.
Arguments onErrorHandler {W} _.
Arguments constraints {W} _.
Arguments loop {W} _.
Arguments sampleSize {W} _.
Arguments trace {W} _.

Section track.
Context {W : Type} `{Devices W}.

Definition set_world (w : W) (t : track W) : track W :=
  {| track_kind := track_kind t; world := w;
     onErrorHandler := onErrorHandler t; constraints := constraints t;
     loop := loop t; sampleSize := sampleSize t; trace := trace t |}.

Definition set_loop (g : goroutine) (t : track W) : track W :=
  {| track_kind := track_kind t; world := world t;
     onErrorHandler := onErrorHandler t; constraints := constraints t;
     loop := g; sampleSize := sampleSize t; trace := trace t |}.

Definition set_sampleSize (n : Z) (t : track W) : track W :=
  {| track_kind := track_kind t; world := world t;
     onErrorHandler := onErrorHandler t; constraints := constraints t;
     loop := loop t; sampleSize := n; trace := trace t |}.

Definition log (e : event) (t : track W) : track W :=
  {| track_kind := track_kind t; world := world t;
     onErrorHandler := onErrorHandler t; constraints := constraints t;
     loop := loop t; sampleSize := sampleSize t; trace := trace t ++ [e] |}.

(** [func (t *track) OnEnded(handler func(error))] *)
Definition OnEnded (h : handler) (t : track W) : track W :=
  {| track_kind := track_kind t; world := world t;
     onErrorHandler := Some h; constraints := constraints t;
     loop := loop t; sampleSize := sampleSize t; trace := trace t |}.

(** [func (t *track) onError(err error)] *)
Definition onError (err : error) (t : track W) : track W :=
  match onErrorHandler t with
  | Some h => log (EvCallback h err) t
  | None => t
  end.

(** [vt.encoder.Read(buff)] *)
Definition encoder_Read (buff : list Byte.byte) (t : track W)
  : list Byte.byte * Z * option error * track W :=
  let '(buff', n, err, w) := Encoder_Read buff (world t) in
  (buff', n, err, log (EvRead (length buff) n err) (set_world w t)).

(** [t.t.WriteSample(s)] *)
Definition WriteSample (s : Sample) (t : track W) : option error * track W :=
  let '(err, w) := LocalTrack_WriteSample s (world t) in
  (err, log (EvWriteSample s err) (set_world w t)).

(** Modelled from the spec: [sampler.sample] of sampler.go, which
    packages the encoded bytes as one outgoing sample unit and hands it
    to the track's output sink; a failure to hand off is its error. *)
Definition sampler_sample (b : list Byte.byte) (t : track W) : option error * track W :=
  let '(samples, w) := sampler_samples (world t) in
  WriteSample {| Data := b; Samples := samples |} (set_world w t).

(** One turn of the [for] loop of [func (vt *videoTrack) start()]. *)
Definition videoTrack_turn (buff : list Byte.byte) (vt : track W) : track W :=
  let '(buff, n, err, vt) := encoder_Read buff vt in
  match err with
  | Some err =>
      match err with
      | InsufficientBufferError RequiredSize =>
          match make_bytes (wrap_int (2 * RequiredSize)) with
          | Return buff => set_loop (Running buff) vt   (* continue *)
          | Panic msg => set_loop (Panicked msg) vt
          end
      | _ => set_loop (Returned err) (onError err vt)
      end
  | None =>
      match slice_to buff n with
      | Return b =>
          let '(err, vt) := sampler_sample b vt in
          match err with
          | Some err => set_loop (Returned err) (onError err vt)
          | None => set_loop (Running buff) vt
          end
      | Panic msg => set_loop (Panicked msg) vt
      end
  end.

(** One turn of the [for] loop of [func (t *audioTrack) start()]. *)
Definition audioTrack_turn (buff : list Byte.byte) (t : track W) : track W :=
  let '(buff, n, err, t) := encoder_Read buff t in
  match err with
  | Some err => set_loop (Returned err) (onError err t)
  | None =>
      match slice_to buff n with
      | Return b =>
          let '(err, t) :=
            WriteSample {| Data := b; Samples := sampleSize t |} t in
          match err with
          | Some err => set_loop (Returned err) (onError err t)
          | None => set_loop (Running buff) t
          end
      | Panic msg => set_loop (Panicked msg) t
      end
  end.

(** What [start] does before its loop: [buff := make([]byte, 1024)] and,
    for audio, [sampleSize :=
    uint32(float64(SampleRate) * Latency.Seconds())]. *)
Definition audio_sampleSize (c : MediaTrackConstraints W) : Z :=
  uint32_of_float64 uint32_out_of_range
    (mul (of_int (prop.SampleRate (prop.Media_Audio (Media_ c))))
         (time.Seconds (prop.Latency (prop.Media_Audio (Media_ c))))).

Definition go_start (t : track W) : track W :=
  let buff := replicate 1024 Byte.x00 in
  match track_kind t with
  | VideoTrack => set_loop (Running buff) t
  | AudioTrack =>
      set_loop (Running buff)
        (set_sampleSize (audio_sampleSize (constraints t)) t)
  end.

(** One turn of the loop of the track's goroutine; a goroutine that is
    not in its loop does nothing. *)
Definition turn (t : track W) : track W :=
  match loop t with
  | Running buff =>
      match track_kind t with
      | VideoTrack => videoTrack_turn buff t
      | AudioTrack => audioTrack_turn buff t
      end
  | _ => t
  end.

(** [func (vt *videoTrack) Stop()] and [func (t *audioTrack) Stop()]:
    [d.Close()], then [encoder.Close()], their errors dropped. *)
Definition Stop (t : track W) : track W :=
  let '(_, w) := Driver_Close (world t) in
  let t := log EvClose (set_world w t) in
  let '(_, w) := Encoder_Close (world t) in
  log EvEncoderClose (set_world w t).

(** What happens to a track, one at a time: a turn of its loop, or a
    call of the application. *)
Inductive action :=
  | Turn
  | CallOnEnded (h : handler)
  | CallStop.

Definition act (a : action) (t : track W) : track W :=
  match a with
  | Turn => turn t
  | CallOnEnded h => OnEnded h t
  | CallStop => Stop t
  end.

(** A schedule of the goroutine and the application, run in order. *)
Definition run (sched : list action) (t : track W) : track W :=
  fold_left (fun t a => act a t) sched t.

(** [start] run for at most [fuel] turns, nothing else happening. *)
Fixpoint start (fuel : nat) (t : track W) : track W :=
  match fuel with
  | O => t
  | S fuel' => start fuel' (turn t)
  end.

(** The failure callbacks called so far, and the samples handed to the
    sink. *)
Definition callbacks (t : track W) : list (handler * error) :=
  omap (fun e => match e with EvCallback h err => Some (h, err) | _ => None end)
       (trace t).

Definition emitted (t : track W) : list Sample :=
  omap (fun e => match e with EvWriteSample s _ => Some s | _ => None end)
       (trace t).

(** The buffer lengths of the encoder reads so far. *)
Definition read_sizes (t : track W) : list nat :=
  omap (fun e => match e with EvRead len _ _ => Some len | _ => None end)
       (trace t).

(** [func newTrack(codecs, trackGenerator, d, codecName)]: the first
    codec of that name, then the track generator. *)
Definition newTrack (codecs : list RTPCodec) (codecName : string) (w : W)
  : option error * W :=
  match List.find (fun c => String.eqb (Name c) codecName) codecs with
  | None =>
      (Some (errorString ("track: " +:+ codecName +:+
                          " is not registered in media engine")), w)
  | Some selectedCodec =>
      let '(ssrc, w) := rand_Uint32 w in
      trackGenerator (PayloadType selectedCodec) ssrc (Driver_ID w)
        (RTPCodecType_String (Type_ selectedCodec)) selectedCodec w
  end.

(** A constructor returns its error, or the track with its goroutine
    launched; either way [ctor_track] holds the outside as the constructor
    left it and the calls it made. *)
Record constructed := {
  ctor_error : option error;
  ctor_track : track W
}.

Definition fresh (k : kind) (c : MediaTrackConstraints W) (w : W) : track W :=
  {| track_kind := k; world := w; onErrorHandler := None;
     constraints := c; loop := NotStarted; sampleSize := 0; trace := [] |}.

Definition failed (err : error) (t : track W) : constructed :=
  {| ctor_error := Some err; ctor_track := t |}.

(** [func newVideoTrack(opts, d, constraints)] *)
Definition newVideoTrack (opts : MediaDevicesOptions)
    (c : MediaTrackConstraints W) (w : W) : constructed :=
  let codecName := prop.CodecName (prop.Media_Codec (Media_ c)) in
  let '(err, w) := newTrack (codecs opts RTPCodecTypeVideo) codecName w in
  let vt := fresh VideoTrack c w in
  match err with
  | Some err => failed err vt
  | None =>
      let '(err, w) := Driver_Open (world vt) in
      let vt := log (EvOpen err) (set_world w vt) in
      match err with
      | Some err => failed err vt
      | None =>
          let '(err, w) := Driver_VideoRecord (Media_ c) (world vt) in
          let vt := log (EvRecord err) (set_world w vt) in
          match err with
          | Some err => failed err vt
          | None =>
              let vt :=
                match VideoTransform c with
                | Some f => set_world (f (world vt)) vt
                | None => vt
                end in
              let '(err, w) := BuildVideoEncoder (Media_ c) (world vt) in
              let vt := log (EvBuildEncoder err) (set_world w vt) in
              match err with
              | Some err => failed err vt
              | None => {| ctor_error := None; ctor_track := go_start vt |}
              end
          end
      end
  end.

(** [func newAudioTrack(opts, d, constraints)] *)
Definition newAudioTrack (opts : MediaDevicesOptions)
    (c : MediaTrackConstraints W) (w : W) : constructed :=
  let codecName := prop.CodecName (prop.Media_Codec (Media_ c)) in
  let '(err, w) := newTrack (codecs opts RTPCodecTypeAudio) codecName w in
  let t := fresh AudioTrack c w in
  match err with
  | Some err => failed err t
  | None =>
      let '(err, w) := Driver_Open (world t) in
      let t := log (EvOpen err) (set_world w t) in
      match err with
      | Some err => failed err t
      | None =>
          let '(err, w) := Driver_AudioRecord (Media_ c) (world t) in
          let t := log (EvRecord err) (set_world w t) in
          match err with
          | Some err => failed err t
          | None =>
              let t :=
                match AudioTransform c with
                | Some f => set_world (f (world t)) t
                | None => t
                end in
              let '(err, w) := BuildAudioEncoder (Media_ c) (world t) in
              let t := log (EvBuildEncoder err) (set_world w t) in
              match err with
              | Some err => failed err t
              | None => {| ctor_error := None; ctor_track := go_start t |}
              end
          end
      end
  end.

(** How the loop status can change in one turn, seen from the
    callbacks: the goroutine either did not return, and called nothing,
    or returned with [err], having called the registered callback with
    it, if there is one. *)
Inductive turn_result (t t' : track W) : Prop :=
  | turn_goes_on :
      (∀ err, loop t' ≠ Returned err) →
      callbacks t' = callbacks t →
      turn_result t t'
  | turn_returns (err : error) :
      loop t' = Returned err →
      callbacks t' =
        callbacks t ++ match onErrorHandler t with
                       | Some h => [(h, err)]
                       | None => []
                       end →
      turn_result t t'.


(** The callback was called at most once, and not at all while the
    goroutine has not returned. *)
Definition once (t : track W) : Prop :=
  match loop t with
  | Returned _ => (length (callbacks t) ≤ 1)%nat
  | _ => callbacks t = []
  end.

(** What the audio loop keeps: its kind, the sample count computed
    before the loop, and that count on every sample handed over. *)
Definition annotated (c : MediaTrackConstraints W) (t : track W) : Prop :=
  track_kind t = AudioTrack ∧
  sampleSize t = audio_sampleSize c ∧
  Forall (λ s, Samples s = audio_sampleSize c) (emitted t).

End track.

End mediadevices.

(** ** The spec's reading of the fitness distance *)

Module spec.
Import prop.

Section spec.
Context `{Strconv}.

(** The five compared fields of a pair of [Media], as printed pairs
    (actual, ideal), in the order [FitnessDistance] adds them. *)
Definition field_pairs (p o : Media) : list (string * string) :=
  [ (Sprint (VInt (Width p)), Sprint (VInt (Width o)));
    (Sprint (VInt (Height p)), Sprint (VInt (Height o)));
    (Sprint (VFormat (FrameFormat p)), Sprint (VFormat (FrameFormat o)));
    (Sprint (VInt (SampleRate p)), Sprint (VInt (SampleRate o)));
    (Sprint (VDuration (Latency p)), Sprint (VDuration (Latency o))) ].

(** The spec: the sum of the contributions of all five fields, each on
    its own. *)
Definition per_field_sum (p o : Media) : outcome float64 :=
  visit_all zero (field_pairs p o).

(** A field the caller left alone holds Go's zero value, which prints as
    ["0"], the empty string or ["0s"]. *)
Definition unconstrained (ideal : string) : bool :=
  String.eqb ideal "0" || String.eqb ideal "" || String.eqb ideal "0s".

(** The spec: the sum over the constrained fields only. *)
Definition constrained_sum (p o : Media) : outcome float64 :=
  visit_all zero (filter (fun kv => negb (unconstrained kv.2)) (field_pairs p o)).

(** Exactly one of the two strings parses as a number. *)
Definition mixed (actual ideal : string) : Prop :=
  (is_Some (ParseFloat actual) ∧ ParseFloat ideal = None) ∨
  (ParseFloat actual = None ∧ is_Some (ParseFloat ideal)).

End spec.

(** The message of the panic of [fitnessDistance]. *)
Definition mix_panic : string := "fitnessDistance can't mix comparisons.".

(** Two [Media] agree on the five fields [FitnessDistance] reads. *)
Definition same_compared_fields (p p' : Media) : Prop :=
  Width p = Width p' ∧ Height p = Height p' ∧
  FrameFormat p = FrameFormat p' ∧
  SampleRate p = SampleRate p' ∧ Latency p = Latency p'.

(** The float64 value 0.25, by its bits. *)
Definition quarter : float64 := S754_finite false 4503599627370496 (-54).

End spec.

(** ** The collaborators of track_test.go *)

Module mock.
Import mediadevices.

(** A test device with its mock codec and mock track: whether the driver
    was opened, whether it was closed since, whether the recorder refuses,
    and what the next encoder reads answer ([None]: a full buffer). *)
Record World := {
  opened : bool;
  closed : bool;
  record_error : option error;
  script : list (option error)
}.

Definition Open (w : World) : option error * World :=
  (None, {| opened := true; closed := false;
            record_error := record_error w; script := script w |}).

Definition Close (w : World) : option error * World :=
  (None, {| opened := false; closed := true;
            record_error := record_error w; script := script w |}).

(** [mockVideoCodec.Read] and [mockAudioCodec.Read]: the error of the raw
    reader with [n = 0], or else [len(b)].  Modelled from the spec: the raw
    reader of the test drivers, which are not part of the embedded files;
    once the device is closed the read returns the end-of-stream
    indicator, [io.EOF], the error the test's [OnEnded] handler expects. *)
Definition Read (b : list Byte.byte) (w : World)
  : (list Byte.byte * Z * option error) * World :=
  if closed w then ((b, 0, Some EOF), w)
  else
    match script w with
    | Some err :: rest =>
        ((b, 0, Some err),
         {| opened := opened w; closed := closed w;
            record_error := record_error w; script := rest |})
    | None :: rest =>
        ((b, Z.of_nat (length b), None),
         {| opened := opened w; closed := closed w;
            record_error := record_error w; script := rest |})
    | [] => ((b, Z.of_nat (length b), None), w)
    end.

(** The builder registered as ["MockVideo"]: a zero bit rate is a wrong
    codec parameter. *)
Definition BuildVideo (p : prop.Media) (w : World) : option error * World :=
  if prop.BitRate (prop.Media_Codec p) =? 0
  then (Some (errorString "wrong codec parameter"), w)
  else (None, w).

#[export] Instance devices : Devices World := {|
  Driver_ID := fun _ => "mock";
  Driver_Open := Open;
  Driver_Close := Close;
  Driver_VideoRecord := fun _ w => (record_error w, w);
  Driver_AudioRecord := fun _ w => (record_error w, w);
  BuildVideoEncoder := BuildVideo;
  BuildAudioEncoder := fun _ w => (None, w);
  Encoder_Read := Read;
  Encoder_Close := fun w => (None, w);
  LocalTrack_WriteSample := fun _ w => (None, w);
  trackGenerator := fun _ _ _ _ _ w => (None, w);
  rand_Uint32 := fun w => (0, w);
  sampler_samples := fun w => (0, w);
  uint32_out_of_range := fun _ => 0
|}.

Definition device (script : list (option error)) : World :=
  {| opened := false; closed := false; record_error := None; script := script |}.

Definition media (codecName : string) (w h : Z) (f : string)
    (rate : Z) (latency : time.Duration) (bitRate : Z) : prop.Media :=
  {| prop.DeviceID := "";
     prop.Media_Video :=
       {| prop.Width := w; prop.Height := h;
          prop.FrameRate := S754_zero false; prop.FrameFormat := f |};
     prop.Media_Audio :=
       {| prop.ChannelCount := 0; prop.Latency := latency;
          prop.SampleRate := rate; prop.SampleSize := 0 |};
     prop.Media_Codec :=
       {| prop.CodecName := codecName; prop.BitRate := bitRate;
          prop.Quality := 0; prop.KeyFrameInterval := 0 |} |}.

Definition track_constraints (m : prop.Media) : MediaTrackConstraints World :=
  {| Media_ := m; Enabled := true; VideoTransform := None; AudioTransform := None |}.

(** The codecs of the test's media engine. *)
Definition opts : MediaDevicesOptions :=
  {| codecs := fun k =>
       match k with
       | RTPCodecTypeVideo =>
           [ {| Name := "MockVideo"; PayloadType := 1; Type_ := RTPCodecTypeVideo |} ]
       | RTPCodecTypeAudio =>
           [ {| Name := "MockAudio"; PayloadType := 2; Type_ := RTPCodecTypeAudio |} ]
       end |}.

(** The constraints of the test: 640x480 video at 100 kbps, audio at
    32 kbps. *)
Definition video_constraints : MediaTrackConstraints World :=
  track_constraints (media "MockVideo" 640 480 "" 0 0 100000).
Definition audio_constraints : MediaTrackConstraints World :=
  track_constraints (media "MockAudio" 0 0 "" 48000 20000000 32000).

End mock.

(** ** Conditions on the collaborators, the goroutine and a schedule *)

Module conditions.
Import mediadevices.

(** The values of Go's [int]. *)
Definition is_int (z : Z) : Prop := - 2 ^ 63 ≤ z < 2 ^ 63.

(** The goroutine is not in its loop: not launched, returned or
    panicked. *)
Definition idle (g : goroutine) : Prop := ∀ buff, g ≠ Running buff.

(** The callbacks a schedule registers, in its order. *)
Definition registered (sched : list action) : list handler :=
  omap (fun a => match a with CallOnEnded h => Some h | _ => None end) sched.

Section conditions.
Context {W : Type} `{Devices W}.

(** A Go [Read] fills the slice it is given; it cannot change its
    length. *)
Definition keeps_length : Prop :=
  ∀ (b : list Byte.byte) (w : W), length (Encoder_Read b w).1.1.1 = length b.

(** What a constructor leaves: on success the goroutine in its loop with
    a buffer of 1024 zero bytes, after the device was opened, the raw source
    taken and the encoder built; on an error the goroutine not launched and
    the calls up to the one that failed, whose error is the one returned. *)
Definition fails_fast (r : @constructed W) : Prop :=
  let t := ctor_track r in
  match ctor_error r with
  | None =>
      loop t = Running (replicate 1024 Byte.x00) ∧
      trace t = [EvOpen None; EvRecord None; EvBuildEncoder None]
  | Some err =>
      loop t = NotStarted ∧
      (trace t = [] ∨
       trace t = [EvOpen (Some err)] ∨
       trace t = [EvOpen None; EvRecord (Some err)] ∨
       trace t = [EvOpen None; EvRecord None; EvBuildEncoder (Some err)])
  end.

End conditions.
End conditions.

(** ** An encoder that breaks the contract of Read *)

Module faulty.
Import mediadevices.

(** Collaborators that never fail, with an encoder whose [Read] reports
    one byte more than the buffer holds. *)
#[export] Instance devices : Devices unit := {|
  Driver_ID := fun _ => "faulty";
  Driver_Open := fun w => (None, w);
  Driver_Close := fun w => (None, w);
  Driver_VideoRecord := fun _ w => (None, w);
  Driver_AudioRecord := fun _ w => (None, w);
  BuildVideoEncoder := fun _ w => (None, w);
  BuildAudioEncoder := fun _ w => (None, w);
  Encoder_Read := fun b w => ((b, Z.of_nat (length b) + 1, None), w);
  Encoder_Close := fun w => (None, w);
  LocalTrack_WriteSample := fun _ w => (None, w);
  trackGenerator := fun _ _ _ _ _ w => (None, w);
  rand_Uint32 := fun w => (0, w);
  sampler_samples := fun w => (0, w);
  uint32_out_of_range := fun _ => 0
|}.

Definition track_constraints (m : prop.Media) : MediaTrackConstraints unit :=
  {| Media_ := m; Enabled := true; VideoTransform := None; AudioTransform := None |}.

End faulty.

(* ================================================================== *)
(** * Part II. Theorems                                                *)
(* ================================================================== *)

(** ** Binary64 arithmetic: a quotient of a difference does not vanish *)

Module float_facts.

(** *** Counting binary digits *)

Lemma digits2_pos_size (m : positive) : digits2_pos m = Pos.size m.
Proof. induction m; simpl; congruence. Qed.

Lemma dig_log2 (m : positive) : dig m = Z.log2 (Z.pos m) + 1.
Proof.
  unfold dig. induction m as [m IH|m IH|]; simpl digits2_pos.
  - rewrite Pos2Z.inj_succ, IH. 
    change (Z.pos m~1) with (2 * Z.pos m + 1).
    rewrite Z.log2_succ_double by lia. lia.
  - rewrite Pos2Z.inj_succ, IH.
    change (Z.pos m~0) with (2 * Z.pos m).
    rewrite Z.log2_double by lia. lia.
  - reflexivity.
Qed.

Lemma Zdigits2_log2 (m : Z) : 0 < m -> Zdigits2 m = Z.log2 m + 1.
Proof. destruct m; try lia. intros _. apply dig_log2. Qed.


Lemma Zdigits2_pos (m : Z) : 0 < m -> 1 <= Zdigits2 m.
Proof. intros Hm. rewrite Zdigits2_log2 by done. pose proof (Z.log2_nonneg m). lia. Qed.

Lemma Zdigits2_ge (m k : Z) : 0 < m -> 2 ^ k <= m -> k + 1 <= Zdigits2 m.
Proof.
  intros Hm Hk. rewrite Zdigits2_log2 by done.
  destruct (Z.le_gt_cases 0 k) as [Hk0|Hk0].
  - apply Z.log2_le_pow2 in Hk; lia.
  - pose proof (Z.log2_nonneg m). lia.
Qed.

Lemma Zdigits2_le (m k : Z) : 0 < m -> m < 2 ^ k -> Zdigits2 m <= k.
Proof.
  intros Hm Hk. rewrite Zdigits2_log2 by done.
  apply Z.log2_lt_pow2 in Hk; lia.
Qed.

Lemma Zdigits2_lower (m : Z) : 0 < m -> 2 ^ (Zdigits2 m - 1) <= m.
Proof.
  intros Hm. rewrite Zdigits2_log2 by done.
  replace (Z.log2 m + 1 - 1) with (Z.log2 m) by lia.
  apply Z.log2_spec. lia.
Qed.

Lemma Zdigits2_upper (m : Z) : 0 < m -> m < 2 ^ Zdigits2 m.
Proof.
  intros Hm. rewrite Zdigits2_log2 by done. apply Z.log2_spec. lia.
Qed.

Lemma Zdigits2_mono (a b : Z) : 0 < a -> a <= b -> Zdigits2 a <= Zdigits2 b.
Proof.
  intros Ha Hab. rewrite !Zdigits2_log2 by lia.
  pose proof (Z.log2_le_mono a b Hab). lia.
Qed.

Lemma Zdigits2_shl (m k : Z) : 0 < m -> 0 <= k -> Zdigits2 (m * 2 ^ k) = Zdigits2 m + k.
Proof.
  intros Hm Hk.
  assert (0 < m * 2 ^ k) by (apply Z.mul_pos_pos; [lia|apply Z.pow_pos_nonneg; lia]).
  rewrite !Zdigits2_log2 by lia. rewrite Z.log2_mul_pow2 by lia. lia.
Qed.

Lemma Zdigits2_shr (m k : Z) :
  0 < m -> 0 <= k < Zdigits2 m ->
  0 < m / 2 ^ k /\ Zdigits2 (m / 2 ^ k) = Zdigits2 m - k.
Proof.
  intros Hm Hk.
  assert (2 ^ k <= m) as Hle.
  { etransitivity; [|apply Zdigits2_lower; lia].
    apply Z.pow_le_mono_r; lia. }
  assert (0 < 2 ^ k) as Hp by (apply Z.pow_pos_nonneg; lia).
  assert (0 < m / 2 ^ k) as Hq by (apply Z.div_str_pos; lia).
  split; [done|].
  rewrite !Zdigits2_log2 by lia.
  rewrite <- Z.shiftr_div_pow2 by lia. rewrite Z.log2_shiftr by lia.
  rewrite Zdigits2_log2 in Hk by lia. lia.
Qed.

(** *** Shifting right *)

Lemma shr_1_m (r : shr_record) : 0 <= shr_m r -> shr_m (shr_1 r) = shr_m r / 2.
Proof.
  destruct r as [m r s]. simpl. intros Hm.
  destruct m as [|p|p]; [done| |lia].
  destruct p as [p|p|]; simpl.
  - change (Z.pos p~1) with (2 * Z.pos p + 1). 
    rewrite Z.mul_comm, Z.div_add_l by lia. done.
  - change (Z.pos p~0) with (2 * Z.pos p).
    rewrite Z.mul_comm, Z.div_mul by lia. done.
  - done.
Qed.

Lemma iter_pos_shr_1 (p : positive) :
  forall r, 0 <= shr_m r -> shr_m (SpecFloat.iter_pos shr_1 p r) = shr_m r / 2 ^ Z.pos p.
Proof.
  assert (forall a, 0 <= a -> 0 <= a / 2) as Hhalf by (intros; apply Z.div_pos; lia).
  induction p as [p IH|p IH|]; intros r Hr; simpl SpecFloat.iter_pos.
  - assert (0 <= shr_m (shr_1 r)) as H1 by (rewrite shr_1_m by done; auto).
    assert (0 <= shr_m (SpecFloat.iter_pos shr_1 p (shr_1 r))) as H2.
    { rewrite IH by done. apply Z.div_pos; [done|]. apply Z.pow_pos_nonneg; lia. }
    rewrite IH, IH, shr_1_m by done.
    rewrite !Z.div_div by (try apply Z.pow_pos_nonneg; lia).
    f_equal. assert (Z.pos p~1 = 1 + Z.pos p + Z.pos p) as -> by lia.
    rewrite !Z.pow_add_r by lia. lia.
  - assert (0 <= shr_m (SpecFloat.iter_pos shr_1 p r)) as H2.
    { rewrite IH by done. apply Z.div_pos; [done|]. apply Z.pow_pos_nonneg; lia. }
    rewrite IH, IH by done.
    rewrite !Z.div_div by (try apply Z.pow_pos_nonneg; lia).
    f_equal. assert (Z.pos p~0 = Z.pos p + Z.pos p) as -> by lia.
    rewrite !Z.pow_add_r by lia. lia.
  - rewrite shr_1_m by done. done.
Qed.

Lemma shr_m_of_loc (m : Z) (l : location) : shr_m (shr_record_of_loc m l) = m.
Proof. destruct l as [|[]]; reflexivity. Qed.

(** *** Rounding keeps what is above the smallest exponent *)

Lemma fexp_eq (k : Z) : fexp prec emax k = Z.max (k - 53) (-1074).
Proof. reflexivity. Qed.

Lemma shr_fexp_pos (m e : Z) (l : location) (r : shr_record) (e' : Z) :
  0 < m -> -1074 < Zdigits2 m + e ->
  shr_fexp prec emax m e l = (r, e') ->
  0 < shr_m r /\ Zdigits2 (shr_m r) + e' = Zdigits2 m + e.
Proof.
  intros Hm Hmag. unfold shr_fexp, shr. rewrite fexp_eq.
  pose proof (Zdigits2_pos m Hm) as Hd.
  destruct (Z.max (Zdigits2 m + e - 53) (-1074) - e) as [|k|k] eqn:Hk;
    intros [= <- <-]; rewrite ?shr_m_of_loc; try done.
  rewrite iter_pos_shr_1 by (rewrite shr_m_of_loc; lia).
  rewrite shr_m_of_loc.
  destruct (Zdigits2_shr m (Z.pos k)) as [Hq Hdq]; [done|lia|].
  split; [done|]. lia.
Qed.

Lemma round_nearest_even_bounds (m : Z) (l : location) :
  m <= round_nearest_even m l <= m + 1.
Proof.
  unfold round_nearest_even. destruct l as [|[]]; try lia.
  destruct (Z.even m); lia.
Qed.

Lemma binary_round_aux_pos (s : bool) (m e : Z) (l : location) :
  0 < m -> -1074 < Zdigits2 m + e ->
  binary_round_aux prec emax s m e l = S754_infinity s \/
  exists m' e', binary_round_aux prec emax s m e l = S754_finite s m' e' /\
                Zdigits2 m + e <= dig m' + e'.
Proof.
  intros Hm Hmag. unfold binary_round_aux.
  destruct (shr_fexp prec emax m e l) as [r1 e1] eqn:H1.
  destruct (shr_fexp_pos _ _ _ _ _ Hm Hmag H1) as [Hr1 Hd1].
  pose proof (round_nearest_even_bounds (shr_m r1) (loc_of_shr_record r1)) as Hrne.
  set (m2 := round_nearest_even (shr_m r1) (loc_of_shr_record r1)) in *.
  assert (Zdigits2 (shr_m r1) <= Zdigits2 m2) as Hd2 by (apply Zdigits2_mono; lia).
  destruct (shr_fexp prec emax m2 e1 loc_Exact) as [r2 e2] eqn:H2.
  destruct (shr_fexp_pos m2 e1 loc_Exact r2 e2) as [Hr2 Hd3]; [lia|lia|done|].
  destruct (shr_m r2) as [|m'|m'] eqn:Hm'; [lia| |lia].
  destruct (e2 <=? emax - prec); [|by left].
  right. exists m', e2. split; [done|]. unfold dig.
  change (Z.pos (digits2_pos m')) with (Zdigits2 (Z.pos m')). lia.
Qed.

(** *** Shifting left *)

Lemma iter_xO (m d : positive) : Z.pos (Pos.iter xO m d) = Z.pos m * 2 ^ Z.pos d.
Proof.
  induction d as [|d IH] using Pos.peano_ind.
  - simpl. lia.
  - rewrite Pos.iter_succ, Pos2Z.inj_xO, IH, Pos2Z.inj_succ, Z.pow_succ_r by lia. lia.
Qed.

Lemma shl_align_spec (m : positive) (e e' : Z) :
  let '(m1, e1) := shl_align m e e' in
  e1 = Z.min e e' /\ Z.pos m1 = Z.pos m * 2 ^ (e - e1).
Proof.
  unfold shl_align. destruct (e' - e) as [|d|d] eqn:Hd.
  - split; [lia|]. rewrite Z.sub_diag. simpl. lia.
  - split; [lia|]. rewrite Z.sub_diag. simpl. lia.
  - split; [lia|]. rewrite iter_xO. f_equal. f_equal. lia.
Qed.

Lemma binary_round_pos (s : bool) (m : positive) (e : Z) :
  -1074 < dig m + e ->
  binary_round prec emax s m e = S754_infinity s \/
  exists m' e', binary_round prec emax s m e = S754_finite s m' e' /\
                dig m + e <= dig m' + e'.
Proof.
  intros Hmag. unfold binary_round.
  pose proof (shl_align_spec m e (fexp prec emax (Z.pos (digits2_pos m) + e))) as Hs.
  destruct (shl_align m e _) as [mz ez]. destruct Hs as [Hez Hmz].
  assert (Zdigits2 (Z.pos mz) + ez = dig m + e) as Hd.
  { rewrite Hmz, Zdigits2_shl by lia. unfold dig. simpl Zdigits2. lia. }
  destruct (binary_round_aux_pos s (Z.pos mz) ez loc_Exact) as [Hinf|(m' & e' & Hfin & Hle)];
    [lia|lia|by left|].
  right. exists m', e'. split; [done|]. lia.
Qed.

(** *** Division does not underflow *)

Lemma SFdiv_finite_pos (mx my : positive) (ex ey : Z) :
  -1021 <= dig mx + ex - (dig my + ey) ->
  SFdiv prec emax (S754_finite false mx ex) (S754_finite false my ey) = S754_infinity false \/
  exists m e,
    SFdiv prec emax (S754_finite false mx ex) (S754_finite false my ey) = S754_finite false m e.
Proof.
  intros HE. unfold SFdiv, SFdiv_core_binary. rewrite fexp_eq.
  change (Zdigits2 (Z.pos mx)) with (dig mx).
  change (Zdigits2 (Z.pos my)) with (dig my).
  pose proof (Zdigits2_lower (Z.pos mx) ltac:(lia)) as Hx.
  pose proof (Zdigits2_upper (Z.pos my) ltac:(lia)) as Hy.
  pose proof (Zdigits2_pos (Z.pos mx) ltac:(lia)) as Hdx.
  pose proof (Zdigits2_pos (Z.pos my) ltac:(lia)) as Hdy.
  change (Zdigits2 (Z.pos mx)) with (dig mx) in Hx, Hdx.
  change (Zdigits2 (Z.pos my)) with (dig my) in Hy, Hdy.
  generalize dependent (dig mx). generalize dependent (dig my). intros dy Hy Hdy dx HE Hx Hdx.
  set (e' := Z.min (Z.max (dx + ex - (dy + ey) - 53) (-1074)) (ex - ey)).
  set (s := ex - ey - e').
  assert (0 <= s) as Hs by (unfold s, e'; lia).
  assert (0 <= dx + s - dy - 1) as Hk by (unfold s, e'; lia).
  set (m' := match s with Z.pos _ => Z.shiftl (Z.pos mx) s | 0 => Z.pos mx | Z.neg _ => 0 end).
  assert (m' = Z.pos mx * 2 ^ s) as Hm'.
  { unfold m'. destruct s as [|p|p] eqn:Hsp; [simpl; lia| |lia].
    by rewrite Z.shiftl_mul_pow2. }
  destruct (Z.div_eucl m' (Z.pos my)) as [q r] eqn:Hdiv.
  assert (q = m' / Z.pos my) as Hq by (unfold Z.div; by rewrite Hdiv).
  assert (2 ^ (dx + s - dy - 1) <= q) as Hlow.
  { rewrite Hq. apply Z.div_le_lower_bound; [lia|].
    rewrite Hm'.
    assert (2 ^ (dx - 1) * 2 ^ s = 2 ^ (dx + s - dy - 1) * 2 ^ dy) as Heq.
    { rewrite <- !Z.pow_add_r by lia. f_equal. lia. }
    assert (0 < 2 ^ s) by (apply Z.pow_pos_nonneg; lia).
    assert (0 < 2 ^ (dx + s - dy - 1)) by (apply Z.pow_pos_nonneg; lia).
    nia. }
  assert (0 < q) as Hq0.
  { assert (0 < 2 ^ (dx + s - dy - 1)) by (apply Z.pow_pos_nonneg; lia). lia. }
  pose proof (Zdigits2_ge q _ Hq0 Hlow) as Hdq.
  destruct (binary_round_aux_pos (xorb false false) q e' (new_location (Z.pos my) r))
    as [Hinf|(m & e & Hfin & _)]; [done|unfold s in *; lia|by left|].
  right. by exists m, e.
Qed.

(** *** Subtraction of two different values *)

Lemma bounded_canonical (m : positive) (e : Z) :
  bounded prec emax m e = true -> e = Z.max (dig m + e - 53) (-1074).
Proof.
  unfold bounded, canonical_mantissa. rewrite fexp_eq.
  intros [Hc _]%andb_true_iff. apply Z.eqb_eq in Hc. unfold dig. lia.
Qed.

Lemma Zdigits2_abs (D : Z) : Zdigits2 (Z.abs D) = Zdigits2 D.
Proof. by destruct D. Qed.

Lemma binary_normalize_nonzero (D ez bound : Z) :
  D <> 0 ->
  -1074 < Zdigits2 D + ez ->
  bound <= Zdigits2 D + ez ->
  SFabs (binary_normalize prec emax D ez false) = S754_infinity false \/
  exists m e, SFabs (binary_normalize prec emax D ez false) = S754_finite false m e /\
              bound <= dig m + e.
Proof.
  intros HD Hmin Hb. unfold binary_normalize.
  destruct D as [|p|p]; [done| |]; simpl Zdigits2 in *; fold (dig p) in *.
  - destruct (binary_round_pos false p ez Hmin) as [->|(m & e & -> & Hle)]; [by left|].
    right. exists m, e. split; [done|lia].
  - destruct (binary_round_pos true p ez Hmin) as [->|(m & e & -> & Hle)]; [by left|].
    right. exists m, e. split; [done|lia].
Qed.

(** The digits of a difference when one term has two more digits than the
    other. *)
Lemma Zdigits2_sub (A B : Z) :
  0 < B -> Zdigits2 B + 2 <= Zdigits2 A -> 0 < A ->
  0 < A - B /\ Zdigits2 A - 1 <= Zdigits2 (A - B).
Proof.
  intros HB Hd HA.
  pose proof (Zdigits2_pos B HB) as HdB.
  pose proof (Zdigits2_lower A HA) as HlA.
  pose proof (Zdigits2_upper B HB) as HuB.
  assert (2 ^ Zdigits2 B <= 2 ^ (Zdigits2 A - 2)) as Hp1
    by (apply Z.pow_le_mono_r; lia).
  assert (2 ^ (Zdigits2 A - 1) = 2 * 2 ^ (Zdigits2 A - 2)) as Hp2.
  { rewrite <- Z.pow_succ_r by lia. f_equal. lia. }
  assert (0 < 2 ^ (Zdigits2 A - 2)) by (apply Z.pow_pos_nonneg; lia).
  assert (2 ^ (Zdigits2 A - 2) <= A - B) as Hlow by lia.
  split; [lia|].
  pose proof (Zdigits2_ge (A - B) (Zdigits2 A - 2) ltac:(lia) Hlow). lia.
Qed.

Lemma SFsub_finite (sa sb : bool) (ma mb : positive) (ea eb : Z) :
  bounded prec emax ma ea = true ->
  bounded prec emax mb eb = true ->
  (sa, ma, ea) <> (sb, mb, eb) ->
  SFabs (SFsub prec emax (S754_finite sa ma ea) (S754_finite sb mb eb)) = S754_infinity false \/
  exists m e,
    SFabs (SFsub prec emax (S754_finite sa ma ea) (S754_finite sb mb eb)) = S754_finite false m e /\
    Z.max (dig ma + ea) (dig mb + eb) - 53 <= dig m + e.
Proof.
  intros Ha%bounded_canonical Hb%bounded_canonical Hne. unfold SFsub.
  pose proof (shl_align_spec ma ea (Z.min ea eb)) as HA.
  pose proof (shl_align_spec mb eb (Z.min ea eb)) as HB.
  destruct (shl_align ma ea (Z.min ea eb)) as [A eA].
  destruct (shl_align mb eb (Z.min ea eb)) as [B eB].
  destruct HA as [HeA HA], HB as [HeB HB]. simpl fst.
  set (ez := Z.min ea eb) in *.
  assert (Zdigits2 (Z.pos A) = dig ma + ea - ez) as HdA.
  { rewrite HA, Zdigits2_shl by lia. unfold dig. simpl Zdigits2. lia. }
  assert (Zdigits2 (Z.pos B) = dig mb + eb - ez) as HdB.
  { rewrite HB, Zdigits2_shl by lia. unfold dig. simpl Zdigits2. lia. }
  pose proof (Zdigits2_pos (Z.pos ma) ltac:(lia)) as Hda.
  pose proof (Zdigits2_pos (Z.pos mb) ltac:(lia)) as Hdb.
  change (Zdigits2 (Z.pos ma)) with (dig ma) in Hda.
  change (Zdigits2 (Z.pos mb)) with (dig mb) in Hdb.
  (* the two shifted mantissas differ when the signs agree *)
  assert (sa = sb -> Z.pos A <> Z.pos B) as Hdiff.
  { intros Hs HAB. apply Hne.
    assert (dig ma + ea = dig mb + eb) as Hmag by (rewrite HAB in HdA; lia).
    assert (ea = eb) as He by lia. subst eb.
    assert (ea - eA = 0) as H0 by (unfold ez in *; lia).
    assert (ea - eB = 0) as H0' by (unfold ez in *; lia).
    rewrite H0 in HA. rewrite H0' in HB. simpl in HA, HB.
    assert (ma = mb) by lia. congruence. }
  set (D := cond_Zopp sa (Z.pos A) - cond_Zopp sb (Z.pos B)).
  assert (D <> 0 /\ Z.max (dig ma + ea) (dig mb + eb) - 53 <= Zdigits2 D + ez) as [HD0 HDm].
  { rewrite <- Zdigits2_abs.
    destruct (Bool.bool_dec sa sb) as [Hs|Hs].
    - specialize (Hdiff Hs).
      assert (Z.abs D = Z.abs (Z.pos A - Z.pos B)) as HabsD
        by (unfold D; subst sb; destruct sa; simpl; lia).
      split; [unfold D; subst sb; destruct sa; simpl; lia|]. rewrite HabsD.
      destruct (Z_le_gt_dec (Zdigits2 (Z.pos B) + 2) (Zdigits2 (Z.pos A))) as [H1|H1].
      { destruct (Zdigits2_sub (Z.pos A) (Z.pos B)) as [Hp Hd]; [lia|lia|lia|].
        rewrite Z.abs_eq by lia. lia. }
      destruct (Z_le_gt_dec (Zdigits2 (Z.pos A) + 2) (Zdigits2 (Z.pos B))) as [H2|H2].
      { destruct (Zdigits2_sub (Z.pos B) (Z.pos A)) as [Hp Hd]; [lia|lia|lia|].
        rewrite Z.abs_neq by lia.
        replace (- (Z.pos A - Z.pos B)) with (Z.pos B - Z.pos A) by lia. lia. }
      pose proof (Zdigits2_pos (Z.abs (Z.pos A - Z.pos B)) ltac:(lia)).
      unfold ez in *. lia.
    - assert (Z.abs D = Z.pos A + Z.pos B) as HabsD
        by (unfold D; destruct sa, sb; simpl; try done; lia).
      split; [lia|]. rewrite HabsD.
      pose proof (Zdigits2_mono (Z.pos A) (Z.pos A + Z.pos B) ltac:(lia) ltac:(lia)).
      pose proof (Zdigits2_mono (Z.pos B) (Z.pos A + Z.pos B) ltac:(lia) ltac:(lia)).
      lia. }
  apply binary_normalize_nonzero; [done| |done].
  pose proof (Zdigits2_pos (Z.abs D) ltac:(lia)) as HdD.
  rewrite Zdigits2_abs in HdD. unfold ez. lia.
Qed.

(** *** The comparisons *)

Lemma SFeqb_finite (sa sb : bool) (ma mb : positive) (ea eb : Z) :
  SFeqb (S754_finite sa ma ea) (S754_finite sb mb eb) = true <->
  (sa, ma, ea) = (sb, mb, eb).
Proof.
  unfold SFeqb, SFcompare. split.
  - destruct sa, sb; try done;
      destruct (Z.compare_spec ea eb) as [->| |]; try done;
      fold (Pos.compare ma mb);
      destruct (Pos.compare_spec ma mb) as [->| |]; done.
  - intros [= -> -> ->]. rewrite Z.compare_refl, Pos.compare_cont_refl.
    by destruct sb.
Qed.

Lemma zero_ltb_positive (x : float64) :
  (x = S754_infinity false ∨ ∃ m e, x = S754_finite false m e) →
  ltb zero x = true.
Proof. by intros [->|(m & e & ->)]. Qed.

(** [math.Max] of the absolute values of two finite values that are not
    zero is one of the two. *)
Lemma Max_Abs_finite (sa sb : bool) (ma mb : positive) (ea eb : Z) :
  Max (Abs (S754_finite sa ma ea)) (Abs (S754_finite sb mb eb)) = S754_finite false ma ea ∨
  Max (Abs (S754_finite sa ma ea)) (Abs (S754_finite sb mb eb)) = S754_finite false mb eb.
Proof.
  unfold Max, Abs. cbn -[ltb].
  destruct (ltb _ _); [by left|by right].
Qed.

(** *** The normalized difference *)

(** For two finite values that differ, [|a-i| / max(|a|,|i|)] is above
    zero: the difference has at least the digits of the larger value less
    53, so the quotient is far from the smallest binary64 value. *)
Lemma normalized_positive (a i : float64) :
  valid a = true → valid i = true →
  is_finite a = true → is_finite i = true →
  eqb a i = false →
  ltb zero (prop.normalized a i) = true.
Proof.
  intros Hva Hvi Hfa Hfi Hne. apply zero_ltb_positive. unfold prop.normalized.
  destruct a as [sa| | |sa ma ea], i as [si| | |si mi ei]; try done.
  - (* 0 against a value *)
    change (Abs (sub (S754_zero sa) (S754_finite si mi ei))) with (S754_finite false mi ei).
    change (Max _ _) with (S754_finite false mi ei).
    apply SFdiv_finite_pos. lia.
  - (* a value against 0 *)
    change (Abs (sub (S754_finite sa ma ea) (S754_zero si))) with (S754_finite false ma ea).
    change (Max _ _) with (S754_finite false ma ea).
    apply SFdiv_finite_pos. lia.
  - (* two values *)
    assert ((sa, ma, ea) ≠ (si, mi, ei)) as Hdiff.
    { intros Heq%SFeqb_finite. unfold eqb in Hne. congruence. }
    change (Abs (sub (S754_finite sa ma ea) (S754_finite si mi ei)))
      with (SFabs (SFsub prec emax (S754_finite sa ma ea) (S754_finite si mi ei))).
    destruct (SFsub_finite sa si ma mi ea ei Hva Hvi Hdiff)
      as [->|(m & e & -> & Hmag)];
      destruct (Max_Abs_finite sa si ma mi ea ei) as [->| ->];
      try (by left); apply SFdiv_finite_pos; lia.
Qed.

(** For two finite values that are equal and not zero it is [+0]. *)
Lemma normalized_equal (a i : float64) :
  is_finite a = true → is_finite i = true →
  eqb a i = true → eqb a zero = false →
  prop.normalized a i = zero.
Proof.
  intros Hfa Hfi Heq Hnz. unfold prop.normalized.
  destruct a as [sa| | |sa ma ea], i as [si| | |si mi ei]; try done.
  all: try (destruct si; by cbv in Heq).
  all: try (destruct sa; by cbv in Heq).
  apply SFeqb_finite in Heq as [= -> -> ->].
  assert (sub (S754_finite si mi ei) (S754_finite si mi ei) = S754_zero false) as ->.
  { unfold sub, SFsub. cbv zeta. rewrite Z.min_id. unfold shl_align.
    by rewrite !Z.sub_diag. }
  by destruct (Max_Abs_finite si si mi mi ei ei) as [->| ->].
Qed.

End float_facts.

(** ** The loop of fitnessDistance *)

Module prop_facts.
Import prop spec.

Section visit.
Context `{Strconv}.

Lemma visit_equal (dist : float64) (s : string) :
  visit dist (s, s) = Return dist.
Proof. unfold visit. by rewrite String.eqb_refl. Qed.

Lemma visit_numeric (dist : float64) (actual ideal : string) (a i : float64) :
  actual ≠ ideal →
  ParseFloat actual = Some a →
  ParseFloat ideal = Some i →
  visit dist (actual, ideal) = Return (Float64.add dist (normalized a i)).
Proof.
  intros Hne Ha Hi. unfold visit.
  apply String.eqb_neq in Hne. by rewrite Hne, Ha, Hi.
Qed.

Lemma visit_non_numeric (dist : float64) (actual ideal : string) :
  actual ≠ ideal →
  ParseFloat actual = None →
  ParseFloat ideal = None →
  visit dist (actual, ideal) = Return (Float64.add dist one).
Proof.
  intros Hne Ha Hi. unfold visit.
  apply String.eqb_neq in Hne. by rewrite Hne, Ha, Hi.
Qed.

Lemma mixed_neq (actual ideal : string) : mixed actual ideal → actual ≠ ideal.
Proof.
  intros [[[a Ha] Hi]|[Ha [i Hi]]] Heq; subst; rewrite Ha in Hi; discriminate.
Qed.

Lemma visit_mixed (dist : float64) (actual ideal : string) :
  mixed actual ideal → visit dist (actual, ideal) = Panic mix_panic.
Proof.
  intros Hm. pose proof (mixed_neq _ _ Hm) as Hne.
  apply String.eqb_neq in Hne. unfold visit. rewrite Hne.
  destruct Hm as [[[a Ha] Hi]|[Ha [i Hi]]]; by rewrite Ha, Hi.
Qed.

(** The loop has one panic only. *)
Lemma visit_panic (dist : float64) (entry : string * string) (msg : string) :
  visit dist entry = Panic msg → msg = mix_panic.
Proof.
  destruct entry as [actual ideal]. unfold visit.
  destruct (String.eqb actual ideal); [done|]. simpl.
  unfold mix_panic. destruct (ParseFloat actual), (ParseFloat ideal); congruence.
Qed.

Lemma visit_all_panic (entries : list (string * string)) :
  ∀ (dist : float64) (msg : string),
    visit_all dist entries = Panic msg → msg = mix_panic.
Proof.
  induction entries as [|entry rest IH]; intros dist msg; simpl; [done|].
  destruct (visit dist entry) as [dist'|msg'] eqn:Hv.
  - apply IH.
  - intros [= <-]. by eapply visit_panic.
Qed.

(** A mixed entry anywhere in the order of the visit ends the loop in
    the panic. *)
Lemma visit_all_mixed (entries : list (string * string)) (actual ideal : string) :
  (actual, ideal) ∈ entries →
  mixed actual ideal →
  ∀ dist : float64, visit_all dist entries = Panic mix_panic.
Proof.
  intros Hin Hm.
  induction entries as [|entry rest IH]; intros dist; [by apply elem_of_nil in Hin|].
  simpl. apply elem_of_cons in Hin as [<-|Hin].
  - by rewrite visit_mixed.
  - destruct (visit dist entry) as [dist'|msg] eqn:Hv; [by apply IH|].
    by rewrite (visit_panic _ _ _ Hv).
Qed.

(** Entries whose two strings are equal leave the distance alone. *)
Lemma visit_all_equal (entries : list (string * string)) (dist : float64) :
  Forall (λ kv, kv.1 = kv.2) entries →
  visit_all dist entries = Return dist.
Proof.
  induction 1 as [|[actual ideal] rest Heq _ IH]; simpl in *; [done|].
  subst. by rewrite String.eqb_refl.
Qed.

End visit.

(** ** The comparison set of a pair of Media *)

Section media.
Context `{Strconv} `{MapRange}.

(** The entries of the map are the five field pairs when the five
    actual values print differently. *)
Lemma Media_comparisons_entries (p o : Media) :
  NoDup (field_pairs p o).*1 →
  map_to_list (Media_comparisons p o) ≡ₚ field_pairs p o.
Proof.
  intros Hnd.
  change (Media_comparisons p o) with
    (list_to_map (reverse (field_pairs p o)) : gmap string string).
  rewrite map_to_list_to_map.
  - apply reverse_Permutation.
  - by rewrite fmap_reverse, reverse_Permutation.
Qed.

(** Whatever the order of the visit, the distance of a pair of [Media]
    whose five actual values print differently is the loop's sum over
    all five field pairs, in some order. *)
Lemma FitnessDistance_sum (p o : Media) :
  NoDup (field_pairs p o).*1 →
  ∃ order, order ≡ₚ field_pairs p o ∧
           FitnessDistance p o = visit_all zero order.
Proof.
  intros Hnd. exists (range (Media_comparisons p o)). split; [|done].
  rewrite range_perm. by apply Media_comparisons_entries.
Qed.

(** The map is built from the five compared fields alone. *)
Lemma Media_comparisons_fields (p p' o o' : Media) :
  same_compared_fields p p' → same_compared_fields o o' →
  Media_comparisons p o = Media_comparisons p' o'.
Proof.
  intros (Hw & Hh & Hf & Hs & Hl) (Hw' & Hh' & Hf' & Hs' & Hl').
  unfold Media_comparisons. congruence.
Qed.

End media.

(** ** The claims on the fitness distance *)

(** C3 (the code departs from it). The claim: the distance is the sum of
    the contributions of width, height, frame format, sample rate and
    latency, each on its own.  The comparisons are kept in a map keyed by
    the printed actual value, so two fields with the same actual value
    share one entry: for an actual 480x480 against an ideal 640x480 the
    height pair ["480" -> "480"] replaces the width pair ["480" -> "640"],
    and the distance is 0 in every order of the visit and for every
    [ParseFloat], where the sum over the fields is 0.25. *)
Theorem FitnessDistance_key_collision :
  let p := mock.media "" 480 480 "I420" 0 0 0 in
  let o := mock.media "" 640 480 "I420" 0 0 0 in
  (∀ (S : Strconv) (R : MapRange), FitnessDistance p o = Return zero) ∧
  @per_field_sum strconv.Strconv_int p o = Return quarter ∧
  Return (A := float64) zero ≠ Return quarter.
Proof.
  intros p o. split; [|split; [by vm_compute|discriminate]].
  intros S R. unfold FitnessDistance, fitnessDistance.
  apply visit_all_equal. rewrite range_perm.
  set (entries := map_to_list (Media_comparisons p o)).
  vm_compute in entries. subst entries.
  repeat constructor.
Qed.

(** C5, as stated, fails: a field the caller left unconstrained is not
    excluded.  The test's video constraints (640x480, no frame format)
    against a device that offers 640x480 in I420: the constrained fields
    match, yet the distance is 1, the frame format ["I420"] scored as a
    mismatch against the unset [""]; so it is with the constraints as the
    receiver and the device's properties as the argument. *)
Lemma FitnessDistance_scores_unconstrained :
  let candidate := mock.media "" 640 480 "I420" 0 0 0 in
  let ideal := mock.media "" 640 480 "" 0 0 0 in
  @FitnessDistance strconv.Strconv_int MapRange_to_list candidate ideal = Return one ∧
  @FitnessDistance strconv.Strconv_int MapRange_to_list ideal candidate = Return one ∧
  @constrained_sum strconv.Strconv_int candidate ideal = Return zero ∧
  @FitnessDistance strconv.Strconv_int MapRange_to_list candidate ideal ≠
    @constrained_sum strconv.Strconv_int candidate ideal.
Proof.
  intros candidate ideal.
  assert (@FitnessDistance strconv.Strconv_int MapRange_to_list candidate ideal
          = Return one) as -> by (by vm_compute).
  assert (@constrained_sum strconv.Strconv_int candidate ideal = Return zero)
    as -> by (by vm_compute).
  split; [done|]. split; [by vm_compute|]. split; [done|]. discriminate.
Qed.

(** C5, amended. The compared fields are always the same five, width,
    height, frame format, sample rate and latency, constrained or not:
    when the five actual values print differently, the visit runs over
    exactly the five field pairs, and the distance is the loop's sum over
    all of them, an unconstrained field included. *)
Theorem FitnessDistance_compares_all_fields
    `{Strconv} `{MapRange} (p o : Media) :
  NoDup (field_pairs p o).*1 →
  ∃ order : list (string * string),
    order ≡ₚ field_pairs p o ∧
    (∀ kv, kv ∈ field_pairs p o → kv ∈ order) ∧
    FitnessDistance p o = visit_all zero order.
Proof.
  intros Hnd. destruct (FitnessDistance_sum p o Hnd) as (order & Hperm & Hd).
  exists order. repeat split; [done| |done].
  intros kv Hin. by rewrite Hperm.
Qed.

Lemma FitnessDistance_compares_all_fields_witness :
  let p := mock.media "" 640 480 "I420" 48000 20000000 0 in
  let o := mock.media "" 640 480 "" 0 0 0 in
  NoDup (field_pairs p o).*1 ∧
  ∃ order : list (string * string),
    order ≡ₚ field_pairs p o ∧
    (∀ kv, kv ∈ field_pairs p o → kv ∈ order) ∧
    @FitnessDistance strconv.Strconv_int MapRange_to_list p o =
      @visit_all strconv.Strconv_int zero order.
Proof.
  intros p o.
  assert (NoDup (field_pairs p o).*1) as Hnd.
  { apply NoDup_ListNoDup. vm_compute.
    repeat (constructor; [simpl; intuition discriminate|]). constructor. }
  split; [exact Hnd|].
  exact (@FitnessDistance_compares_all_fields
           strconv.Strconv_int MapRange_to_list p o Hnd).
Defined.

(** C6. A comparison set that holds a pair of which exactly one value
    parses as a number makes [fitnessDistance] panic, in every order of
    the visit: no score is returned. *)
Theorem fitnessDistance_mixed_panics
    `{Strconv} `{MapRange} (c : gmap string string) (actual ideal : string) :
  c !! actual = Some ideal →
  mixed actual ideal →
  fitnessDistance c = Panic mix_panic.
Proof.
  intros Hc Hm. unfold fitnessDistance.
  apply visit_all_mixed with actual ideal; [|done].
  rewrite range_perm. by apply elem_of_map_to_list.
Qed.

Lemma fitnessDistance_mixed_panics_witness :
  let c : gmap string string := {[ "640" := "640"; "I420" := "480" ]} in
  c !! "I420" = Some "480" ∧
  @mixed strconv.Strconv_int "I420" "480" ∧
  @fitnessDistance strconv.Strconv_int MapRange_to_list c = Panic mix_panic.
Proof.
  intros c.
  assert (c !! "I420" = Some "480") as Hc by (by vm_compute).
  assert (@mixed strconv.Strconv_int "I420" "480") as Hm.
  { right. split; [by vm_compute|]. eexists. by vm_compute. }
  split; [exact Hc|]. split; [exact Hm|].
  exact (@fitnessDistance_mixed_panics
           strconv.Strconv_int MapRange_to_list c "I420" "480" Hc Hm).
Defined.

(** C7, as stated, fails: two values that parse as numbers and are equal
    can contribute something else than 0.  The strings ["0"] and ["00"]
    differ, both parse as [+0], and the pair turns a distance of 0 into
    [0/0], a NaN, which is neither 0 nor above 0. *)
Lemma visit_equal_zeros_is_NaN :
  @ParseFloat strconv.Strconv_int "0" = Some zero ∧
  @ParseFloat strconv.Strconv_int "00" = Some zero ∧
  eqb zero zero = true ∧
  @visit strconv.Strconv_int zero ("0", "00") = Return NaN ∧
  @visit strconv.Strconv_int zero ("0", "00") ≠ Return zero ∧
  ltb zero NaN = false.
Proof. repeat split; try (by vm_compute). Qed.

(** C7, amended. For a compared pair whose two values parse as numbers:
    when the two strings are equal the pair is skipped, a contribution of
    0; when they differ the pair adds the float64 value
    [|actual - ideal| / max(|actual|, |ideal|)] to the distance.  For
    parsed values that are finite, that value is above zero when the two
    are unequal, and it is [+0] when they are equal and not zero. *)
Theorem numeric_pair_contribution
    `{Strconv} (dist : float64) (actual ideal : string) (a i : float64) :
  ParseFloat actual = Some a →
  ParseFloat ideal = Some i →
  (actual = ideal → visit dist (actual, ideal) = Return dist) ∧
  (actual ≠ ideal →
   visit dist (actual, ideal) =
     Return (Float64.add dist (div (Abs (sub a i)) (Max (Abs a) (Abs i))))) ∧
  (valid a = true → valid i = true →
   is_finite a = true → is_finite i = true →
   (eqb a i = false →
    ltb zero (div (Abs (sub a i)) (Max (Abs a) (Abs i))) = true) ∧
   (eqb a i = true → eqb a zero = false →
    div (Abs (sub a i)) (Max (Abs a) (Abs i)) = zero)).
Proof.
  intros Ha Hi. split; [|split].
  - intros ->. apply visit_equal.
  - intros Hne. by apply visit_numeric.
  - intros Hva Hvi Hfa Hfi. split.
    + by apply float_facts.normalized_positive.
    + by apply float_facts.normalized_equal.
Qed.

Lemma numeric_pair_contribution_witness :
  let a := of_int 480 in
  let i := of_int 640 in
  @ParseFloat strconv.Strconv_int "480" = Some a ∧
  @ParseFloat strconv.Strconv_int "640" = Some i ∧
  @visit strconv.Strconv_int zero ("480", "640") =
    Return (Float64.add zero (div (Abs (sub a i)) (Max (Abs a) (Abs i)))) ∧
  ltb zero (div (Abs (sub a i)) (Max (Abs a) (Abs i))) = true.
Proof.
  intros a i.
  assert (@ParseFloat strconv.Strconv_int "480" = Some a) as Ha by (by vm_compute).
  assert (@ParseFloat strconv.Strconv_int "640" = Some i) as Hi by (by vm_compute).
  destruct (@numeric_pair_contribution strconv.Strconv_int zero "480" "640" a i Ha Hi)
    as (_ & Hadd & Hpos).
  split; [exact Ha|]. split; [exact Hi|]. split.
  - apply Hadd. discriminate.
  - apply Hpos; by vm_compute.
Defined.

(** The contribution of an actual 480 against an ideal 640 is 0.25. *)
Example normalized_480_640 : normalized (of_int 480) (of_int 640) = quarter.
Proof. by vm_compute. Qed.

(** C10. Two pairs of [Media] that agree on width, height, frame format,
    sample rate and latency have the same fitness distance, however they
    differ in frame rate, channel count, sample size, device ID, codec
    name, bit rate, quality and key-frame interval: the comparison set is
    the same map, and so is the result of its visit. *)
Theorem FitnessDistance_ignores_other_fields
    `{Strconv} `{MapRange} (p p' o o' : Media) :
  same_compared_fields p p' →
  same_compared_fields o o' →
  Media_comparisons p o = Media_comparisons p' o' ∧
  FitnessDistance p o = FitnessDistance p' o'.
Proof.
  intros Hp Ho.
  pose proof (Media_comparisons_fields p p' o o' Hp Ho) as Heq.
  split; [done|]. unfold FitnessDistance. by rewrite Heq.
Qed.

Lemma FitnessDistance_ignores_other_fields_witness :
  let p := mock.media "VP8" 640 480 "I420" 0 0 100000 in
  let p' := mock.media "H264" 640 480 "I420" 0 0 5 in
  let o := mock.media "VP8" 1280 720 "YUY2" 0 0 32000 in
  let o' := mock.media "" 1280 720 "YUY2" 0 0 0 in
  same_compared_fields p p' ∧ same_compared_fields o o' ∧
  Media_comparisons p o = Media_comparisons p' o' ∧
  @FitnessDistance strconv.Strconv_int MapRange_to_list p o =
    @FitnessDistance strconv.Strconv_int MapRange_to_list p' o'.
Proof.
  intros p p' o o'.
  assert (same_compared_fields p p') as Hp by (by repeat split).
  assert (same_compared_fields o o') as Ho by (by repeat split).
  split; [exact Hp|]. split; [exact Ho|].
  exact (@FitnessDistance_ignores_other_fields
           strconv.Strconv_int MapRange_to_list p p' o o' Hp Ho).
Defined.

End prop_facts.

(** ** The processing loops *)

Module track_facts.
Import mediadevices.

Section loops.
Context {W : Type} `{Devices W}.

Lemma callbacks_log (ev : event) (t : track W) :
  callbacks (log ev t) =
    callbacks t ++ match ev with EvCallback h err => [(h, err)] | _ => [] end.
Proof.
  unfold callbacks, log. simpl. rewrite omap_app. simpl.
  by destruct ev.
Qed.

Lemma callbacks_onError (err : error) (t : track W) :
  callbacks (onError err t) =
    callbacks t ++ match onErrorHandler t with
                   | Some h => [(h, err)]
                   | None => []
                   end.
Proof.
  unfold onError. destruct (onErrorHandler t).
  - by rewrite callbacks_log.
  - by rewrite app_nil_r.
Qed.

Lemma loop_onError (err : error) (t : track W) : loop (onError err t) = loop t.
Proof. unfold onError. by destruct (onErrorHandler t). Qed.

Lemma callbacks_set_loop (g : goroutine) (t : track W) :
  callbacks (set_loop g t) = callbacks t.
Proof. done. Qed.

Lemma callbacks_set_world (w : W) (t : track W) :
  callbacks (set_world w t) = callbacks t.
Proof. done. Qed.

Lemma callbacks_set_sampleSize (n : Z) (t : track W) :
  callbacks (set_sampleSize n t) = callbacks t.
Proof. done. Qed.

Lemma callbacks_OnEnded (h : handler) (t : track W) :
  callbacks (OnEnded h t) = callbacks t.
Proof. done. Qed.

Lemma callbacks_Stop (t : track W) : callbacks (Stop t) = callbacks t.
Proof.
  unfold Stop. destruct (Driver_Close (world t)) as [e1 w1]. simpl.
  destruct (Encoder_Close w1) as [e2 w2].
  rewrite callbacks_log, callbacks_set_world, callbacks_log, callbacks_set_world.
  by rewrite !app_nil_r.
Qed.

End loops.

(** Rewriting to the callbacks of the track a turn started from. *)
Ltac callbacks_simpl :=
  repeat first
    [ rewrite callbacks_set_loop | rewrite callbacks_set_world
    | rewrite callbacks_set_sampleSize | rewrite callbacks_onError
    | rewrite callbacks_log | rewrite callbacks_OnEnded
    | rewrite callbacks_Stop | rewrite app_nil_r | progress simpl ].

Section turns.
Context {W : Type} `{Devices W}.

Lemma videoTrack_turn_result (buff : list Byte.byte) (t : track W) :
  turn_result t (videoTrack_turn buff t).
Proof.
  unfold videoTrack_turn, encoder_Read, sampler_sample, WriteSample.
  destruct (Encoder_Read buff (world t)) as [[[buff' n] err] w].
  destruct err as [err|].
  - destruct err as [|R|msg].
    + eapply turn_returns; [done|]. by callbacks_simpl.
    + destruct (make_bytes (wrap_int (2 * R)));
        (apply turn_goes_on; [done|]); by callbacks_simpl.
    + eapply turn_returns; [done|]. by callbacks_simpl.
  - destruct (slice_to buff' n) as [b|msg].
    + simpl. destruct (sampler_samples w) as [samples w1]. simpl.
      destruct (LocalTrack_WriteSample _ w1) as [err w2].
      destruct err as [err|].
      * eapply turn_returns; [done|]. by callbacks_simpl.
      * apply turn_goes_on; [done|]. by callbacks_simpl.
    + apply turn_goes_on; [done|]. by callbacks_simpl.
Qed.

Lemma audioTrack_turn_result (buff : list Byte.byte) (t : track W) :
  turn_result t (audioTrack_turn buff t).
Proof.
  unfold audioTrack_turn, encoder_Read, WriteSample.
  destruct (Encoder_Read buff (world t)) as [[[buff' n] err] w].
  destruct err as [err|].
  - eapply turn_returns; [done|]. by callbacks_simpl.
  - destruct (slice_to buff' n) as [b|msg].
    + simpl. destruct (LocalTrack_WriteSample _ w) as [err w2].
      destruct err as [err|].
      * eapply turn_returns; [done|]. by callbacks_simpl.
      * apply turn_goes_on; [done|]. by callbacks_simpl.
    + apply turn_goes_on; [done|]. by callbacks_simpl.
Qed.

(** A turn of a goroutine in its loop. *)
Lemma turn_result_running (buff : list Byte.byte) (t : track W) :
  loop t = Running buff → turn_result t (turn t).
Proof.
  intros Hl. unfold turn. rewrite Hl. destruct (track_kind t).
  - apply videoTrack_turn_result.
  - apply audioTrack_turn_result.
Qed.

(** A goroutine that is not in its loop takes no turn. *)
Lemma turn_not_running (t : track W) :
  (∀ buff, loop t ≠ Running buff) → turn t = t.
Proof.
  intros Hl. unfold turn. destruct (loop t); try done. by destruct (Hl buff).
Qed.

Lemma loop_Stop (t : track W) : loop (Stop t) = loop t.
Proof.
  unfold Stop. destruct (Driver_Close (world t)) as [e1 w1]. simpl.
  by destruct (Encoder_Close w1) as [e2 w2].
Qed.

Lemma onErrorHandler_Stop (t : track W) :
  onErrorHandler (Stop t) = onErrorHandler t.
Proof.
  unfold Stop. destruct (Driver_Close (world t)) as [e1 w1]. simpl.
  by destruct (Encoder_Close w1) as [e2 w2].
Qed.

Lemma run_app (l1 l2 : list action) (t : track W) :
  run (l1 ++ l2) t = run l2 (run l1 t).
Proof. apply fold_left_app. Qed.

Lemma run_cons (a : action) (l : list action) (t : track W) :
  run (a :: l) t = run l (act a t).
Proof. done. Qed.

(** Once the goroutine has returned, nothing calls the callback. *)
Lemma act_returned (a : action) (t : track W) (err : error) :
  loop t = Returned err →
  loop (act a t) = Returned err ∧ callbacks (act a t) = callbacks t.
Proof.
  intros Hl. destruct a; simpl.
  - rewrite turn_not_running; [done|]. intros buff. by rewrite Hl.
  - done.
  - by rewrite loop_Stop, callbacks_Stop.
Qed.

Lemma run_returned (sched : list action) :
  ∀ (t : track W) (err : error),
    loop t = Returned err →
    loop (run sched t) = Returned err ∧ callbacks (run sched t) = callbacks t.
Proof.
  induction sched as [|a sched IH]; intros t err Hl; [done|].
  rewrite run_cons. destruct (act_returned a t err Hl) as [Hl' Hc'].
  destruct (IH _ _ Hl') as [Hl'' Hc'']. split; congruence.
Qed.

Lemma act_once (a : action) (t : track W) : once t → once (act a t).
Proof.
  intros Ho. destruct a; simpl.
  - destruct (loop t) as [|buff|err|msg] eqn:Hl;
      try (rewrite turn_not_running; [done|]; intros buff; by rewrite Hl).
    unfold once in Ho. rewrite Hl in Ho.
    destruct (turn_result_running buff t Hl) as [Hgo Hc|err Hret Hc]; unfold once.
    + rewrite Hc, Ho. destruct (loop (turn t)); try done. by destruct (Hgo err).
    + rewrite Hret, Hc, Ho. destruct (onErrorHandler t); simpl; lia.
  - done.
  - unfold once. by rewrite loop_Stop, callbacks_Stop.
Qed.

Lemma run_once (sched : list action) :
  ∀ t : track W, once t → once (run sched t).
Proof.
  induction sched as [|a sched IH]; intros t Ho; [done|].
  rewrite run_cons. by apply IH, act_once.
Qed.

Lemma once_length (t : track W) : once t → (length (callbacks t) ≤ 1)%nat.
Proof.
  unfold once. destruct (loop t); try done; intros ->; simpl; lia.
Qed.

Lemma fresh_once (t : track W) : callbacks t = [] → once t.
Proof.
  intros Hc. unfold once. rewrite Hc. destruct (loop t); simpl; try done. lia.
Qed.

(** C8. In every schedule of the goroutine and the application, for a
    video and for an audio track: the failure callback is called at most
    once; and when a turn of the loop ends it with the error [err]
    (a read error that is not recoverable, or an error of the hand-off
    to the sink) while the callback [h] is registered, then from there
    on the calls of the callback are exactly the one call of [h] with
    [err]. *)
Theorem failure_callback_fires_once (t0 : track W) :
  callbacks t0 = [] →
  (∀ sched, (length (callbacks (run sched t0)) ≤ 1)%nat) ∧
  (∀ pre post buff h err,
     loop (run pre t0) = Running buff →
     onErrorHandler (run pre t0) = Some h →
     loop (turn (run pre t0)) = Returned err →
     callbacks (run (pre ++ Turn :: post) t0) = [(h, err)]).
Proof.
  intros Hc0. pose proof (fresh_once t0 Hc0) as Ho0. split.
  - intros sched. by apply once_length, run_once.
  - intros pre post buff h err Hl Hh Hret.
    rewrite run_app, run_cons. simpl.
    pose proof (run_once pre t0 Ho0) as Ho1.
    unfold once in Ho1. rewrite Hl in Ho1.
    destruct (run_returned post _ _ Hret) as [_ ->].
    destruct (turn_result_running buff _ Hl) as [Hgo _|err' Hret' Hc].
    + by destruct (Hgo err).
    + rewrite Hc, Ho1, Hh. simpl. congruence.
Qed.

(** *** The reads and the samples of a turn *)

Lemma read_sizes_log (ev : event) (t : track W) :
  read_sizes (log ev t) =
    read_sizes t ++ match ev with EvRead len _ _ => [len] | _ => [] end.
Proof.
  unfold read_sizes, log. simpl. rewrite omap_app. simpl. by destruct ev.
Qed.

Lemma read_sizes_onError (err : error) (t : track W) :
  read_sizes (onError err t) = read_sizes t.
Proof.
  unfold onError. destruct (onErrorHandler t); [|done].
  by rewrite read_sizes_log, app_nil_r.
Qed.

Lemma read_sizes_set_loop (g : goroutine) (t : track W) :
  read_sizes (set_loop g t) = read_sizes t.
Proof. done. Qed.

Lemma read_sizes_set_world (w : W) (t : track W) :
  read_sizes (set_world w t) = read_sizes t.
Proof. done. Qed.

Lemma emitted_log (ev : event) (t : track W) :
  emitted (log ev t) =
    emitted t ++ match ev with EvWriteSample s _ => [s] | _ => [] end.
Proof.
  unfold emitted, log. simpl. rewrite omap_app. simpl. by destruct ev.
Qed.

Lemma emitted_onError (err : error) (t : track W) :
  emitted (onError err t) = emitted t.
Proof.
  unfold onError. destruct (onErrorHandler t); [|done].
  by rewrite emitted_log, app_nil_r.
Qed.

Lemma emitted_set_loop (g : goroutine) (t : track W) :
  emitted (set_loop g t) = emitted t.
Proof. done. Qed.

Lemma emitted_set_world (w : W) (t : track W) :
  emitted (set_world w t) = emitted t.
Proof. done. Qed.

Lemma emitted_set_sampleSize (n : Z) (t : track W) :
  emitted (set_sampleSize n t) = emitted t.
Proof. done. Qed.

Lemma emitted_Stop (t : track W) : emitted (Stop t) = emitted t.
Proof.
  unfold Stop. destruct (Driver_Close (world t)) as [e1 w1]. simpl.
  destruct (Encoder_Close w1) as [e2 w2].
  rewrite emitted_log, emitted_set_world, emitted_log, emitted_set_world.
  by rewrite !app_nil_r.
Qed.

End turns.

Ltac reads_simpl :=
  repeat first
    [ rewrite read_sizes_set_loop | rewrite read_sizes_set_world
    | rewrite read_sizes_onError | rewrite read_sizes_log
    | rewrite app_nil_r | progress simpl ].

Ltac emitted_simpl :=
  repeat first
    [ rewrite emitted_set_loop | rewrite emitted_set_world
    | rewrite emitted_set_sampleSize | rewrite emitted_onError
    | rewrite emitted_log | rewrite emitted_Stop
    | rewrite app_nil_r | progress simpl ].

(** A list of events written out holds no [EvClose]. *)
Ltac no_close :=
  let Hin := fresh "Hin" in
  intros Hin;
  repeat (apply elem_of_cons in Hin as [Hin|Hin]; [discriminate|]);
  by apply elem_of_nil in Hin.

Section claims.
Context {W : Type} `{Devices W}.

(** Every turn of a loop reads once, with the buffer it holds. *)
Lemma read_sizes_turn (t : track W) (buff : list Byte.byte) :
  loop t = Running buff →
  read_sizes (turn t) = read_sizes t ++ [length buff].
Proof.
  intros Hl. unfold turn. rewrite Hl.
  destruct (track_kind t);
    unfold videoTrack_turn, audioTrack_turn, encoder_Read, sampler_sample, WriteSample;
    destruct (Encoder_Read buff (world t)) as [[[buff' n] err] w].
  - destruct err as [err|].
    + destruct err as [|R|msg]; [by reads_simpl| |by reads_simpl].
      destruct (make_bytes _); by reads_simpl.
    + destruct (slice_to buff' n) as [b|msg]; [|by reads_simpl]. simpl.
      destruct (sampler_samples w) as [samples w1]. simpl.
      destruct (LocalTrack_WriteSample _ w1) as [[err|] w2]; by reads_simpl.
  - destruct err as [err|]; [by reads_simpl|].
    destruct (slice_to buff' n) as [b|msg]; [|by reads_simpl]. simpl.
    destruct (LocalTrack_WriteSample _ w) as [[err|] w2]; by reads_simpl.
Qed.

(** *** The insufficient-buffer condition *)

Lemma wrap_int_small (z : Z) : - 2 ^ 63 ≤ z < 2 ^ 63 → wrap_int z = z.
Proof. intros Hz. unfold wrap_int. rewrite Z.mod_small; lia. Qed.

Lemma make_bytes_ok (n : Z) :
  0 ≤ n ≤ maxAlloc → make_bytes n = Return (replicate (Z.to_nat n) Byte.x00).
Proof.
  intros Hn. unfold make_bytes.
  destruct (n <? 0) eqn:H1; [lia|]. destruct (maxAlloc <? n) eqn:H2; [lia|]. done.
Qed.

(** The video loop: an insufficient buffer with the required size [R]
    is answered by a new buffer of [2*R] bytes, at least [R], and the
    next turn of the loop reads with it; no callback is called. *)
Lemma videoTrack_retries (t : track W) (buff buff' : list Byte.byte)
    (n R : Z) (w : W) :
  track_kind t = VideoTrack →
  loop t = Running buff →
  Encoder_Read buff (world t) = (buff', n, Some (InsufficientBufferError R), w) →
  0 ≤ R → 2 * R ≤ maxAlloc →
  loop (turn t) = Running (replicate (Z.to_nat (2 * R)) Byte.x00) ∧
  callbacks (turn t) = callbacks t ∧
  read_sizes (turn (turn t)) = read_sizes t ++ [length buff; Z.to_nat (2 * R)] ∧
  R ≤ Z.of_nat (Z.to_nat (2 * R)).
Proof.
  intros Hk Hl Hr HR Hmax.
  assert (turn t =
            set_loop (Running (replicate (Z.to_nat (2 * R)) Byte.x00))
              (log (EvRead (length buff) n (Some (InsufficientBufferError R)))
                 (set_world w t))) as Ht.
  { unfold turn. rewrite Hl, Hk. unfold videoTrack_turn, encoder_Read.
    rewrite Hr. rewrite wrap_int_small, make_bytes_ok; [done|lia|].
    unfold maxAlloc in Hmax. lia. }
  assert (loop (turn t) = Running (replicate (Z.to_nat (2 * R)) Byte.x00))
    as Hl' by (by rewrite Ht).
  split; [done|]. split; [rewrite Ht; by callbacks_simpl|]. split; [|lia].
  rewrite (read_sizes_turn _ _ Hl'), (read_sizes_turn _ _ Hl).
  by rewrite length_replicate, <- app_assoc.
Qed.

(** The audio loop has no such case: the condition ends the loop and
    goes to the callback like any other error. *)
Lemma audioTrack_reports_insufficient_buffer (t : track W)
    (buff buff' : list Byte.byte) (n R : Z) (w : W) (h : handler) :
  track_kind t = AudioTrack →
  loop t = Running buff →
  onErrorHandler t = Some h →
  Encoder_Read buff (world t) = (buff', n, Some (InsufficientBufferError R), w) →
  loop (turn t) = Returned (InsufficientBufferError R) ∧
  callbacks (turn t) = callbacks t ++ [(h, InsufficientBufferError R)].
Proof.
  intros Hk Hl Hh Hr. unfold turn. rewrite Hl, Hk.
  unfold audioTrack_turn, encoder_Read. rewrite Hr.
  split; [done|]. callbacks_simpl. by rewrite Hh.
Qed.

(** *** Stop *)

Lemma world_Stop (t : track W) :
  world (Stop t) = (Encoder_Close (Driver_Close (world t)).2).2.
Proof.
  unfold Stop. destruct (Driver_Close (world t)) as [e1 w1]. simpl.
  by destruct (Encoder_Close w1) as [e2 w2].
Qed.

Lemma trace_Stop (t : track W) :
  trace (Stop t) = trace t ++ [EvClose; EvEncoderClose].
Proof.
  unfold Stop. destruct (Driver_Close (world t)) as [e1 w1]. simpl.
  destruct (Encoder_Close w1) as [e2 w2]. simpl. by rewrite <- app_assoc.
Qed.

Lemma track_kind_Stop (t : track W) : track_kind (Stop t) = track_kind t.
Proof.
  unfold Stop. destruct (Driver_Close (world t)) as [e1 w1]. simpl.
  by destruct (Encoder_Close w1) as [e2 w2].
Qed.

(** A read error that is not an insufficient buffer ends either loop
    and goes to the registered callback. *)
Lemma turn_read_error (t : track W) (buff buff' : list Byte.byte)
    (n : Z) (err : error) (w : W) (h : handler) :
  loop t = Running buff →
  onErrorHandler t = Some h →
  Encoder_Read buff (world t) = (buff', n, Some err, w) →
  (∀ R, err ≠ InsufficientBufferError R) →
  loop (turn t) = Returned err ∧
  callbacks (turn t) = callbacks t ++ [(h, err)].
Proof.
  intros Hl Hh Hr Herr. unfold turn. rewrite Hl.
  destruct (track_kind t);
    unfold videoTrack_turn, audioTrack_turn, encoder_Read; rewrite Hr.
  - destruct err as [|R|msg]; [|by destruct (Herr R)|];
      (split; [done|]); callbacks_simpl; by rewrite Hh.
  - split; [done|]. callbacks_simpl. by rewrite Hh.
Qed.

(** C2, amended. [Stop] closes the device and then the encoder, at once
    and whatever they answer.  The loop does not know of it: when the
    read that follows fails with an error that is not an insufficient
    buffer, the end-of-stream of a closed device included, the loop ends
    and the registered failure callback is called once with that error,
    as for a failure without a [Stop]. *)
Theorem Stop_closes_and_read_error_is_reported (t : track W)
    (buff buff' : list Byte.byte) (n : Z) (err : error) (w : W) (h : handler) :
  loop t = Running buff →
  onErrorHandler t = Some h →
  Encoder_Read buff (world (Stop t)) = (buff', n, Some err, w) →
  (∀ R, err ≠ InsufficientBufferError R) →
  world (Stop t) = (Encoder_Close (Driver_Close (world t)).2).2 ∧
  trace (Stop t) = trace t ++ [EvClose; EvEncoderClose] ∧
  loop (turn (Stop t)) = Returned err ∧
  callbacks (turn (Stop t)) = callbacks t ++ [(h, err)].
Proof.
  intros Hl Hh Hr Herr.
  split; [apply world_Stop|]. split; [apply trace_Stop|].
  rewrite <- (callbacks_Stop t).
  apply turn_read_error with buff buff' n w; try done.
  - by rewrite loop_Stop.
  - by rewrite onErrorHandler_Stop.
Qed.

(** *** The sample count of the audio loop *)

Lemma track_kind_onError (err : error) (t : track W) :
  track_kind (onError err t) = track_kind t.
Proof. unfold onError. by destruct (onErrorHandler t). Qed.

Lemma sampleSize_onError (err : error) (t : track W) :
  sampleSize (onError err t) = sampleSize t.
Proof. unfold onError. by destruct (onErrorHandler t). Qed.

Lemma audioTrack_turn_annotated (c : MediaTrackConstraints W)
    (buff : list Byte.byte) (t : track W) :
  annotated c t → annotated c (audioTrack_turn buff t).
Proof.
  intros (Hk & Hs & He). unfold audioTrack_turn, encoder_Read, WriteSample.
  destruct (Encoder_Read buff (world t)) as [[[buff' n] err] w].
  destruct err as [err|].
  - split; [|split]; simpl.
    + by rewrite track_kind_onError.
    + by rewrite sampleSize_onError.
    + by emitted_simpl.
  - destruct (slice_to buff' n) as [b|msg].
    + simpl. destruct (LocalTrack_WriteSample _ w) as [[err|] w2];
        (split; [|split]); simpl;
        rewrite ?track_kind_onError, ?sampleSize_onError; try done;
        emitted_simpl; (apply Forall_app; split; [done|]);
        by repeat constructor.
    + split; [|split]; try done. by emitted_simpl.
Qed.

Lemma act_annotated (c : MediaTrackConstraints W) (a : action) (t : track W) :
  annotated c t → annotated c (act a t).
Proof.
  intros Ha. destruct a; simpl.
  - unfold turn. destruct (loop t); try done.
    destruct Ha as (Hk & Hs & He). rewrite Hk.
    by apply audioTrack_turn_annotated.
  - done.
  - destruct Ha as (Hk & Hs & He). repeat split.
    + by rewrite track_kind_Stop.
    + rewrite <- Hs. unfold Stop.
      destruct (Driver_Close (world t)) as [e1 w1]. simpl.
      by destruct (Encoder_Close w1) as [e2 w2].
    + by rewrite emitted_Stop.
Qed.

Lemma run_annotated (c : MediaTrackConstraints W) (sched : list action) :
  ∀ t : track W, annotated c t → annotated c (run sched t).
Proof.
  induction sched as [|a sched IH]; intros t Ha; [done|].
  rewrite run_cons. by apply IH, act_annotated.
Qed.

Lemma newAudioTrack_annotated (opts : MediaDevicesOptions)
    (c : MediaTrackConstraints W) (w : W) :
  ctor_error (newAudioTrack opts c w) = None →
  annotated c (ctor_track (newAudioTrack opts c w)).
Proof.
  unfold newAudioTrack.
  destruct (newTrack _ _ w) as [[err|] w1]; [done|]. simpl.
  destruct (Driver_Open w1) as [[err|] w2]; [done|]. simpl.
  destruct (Driver_AudioRecord _ w2) as [[err|] w3]; [done|]. simpl.
  destruct (AudioTransform c) as [f|]; simpl.
  - destruct (BuildAudioEncoder _ (f w3)) as [[err|] w4]; [done|]. simpl.
    intros _. by repeat split.
  - destruct (BuildAudioEncoder _ w3) as [[err|] w4]; [done|]. simpl.
    intros _. by repeat split.
Qed.

(** C9. For every audio track that [newAudioTrack] returns and every
    schedule of its goroutine and the application: the loop holds the
    sample count [uint32(float64(SampleRate) * Latency.Seconds())] of its
    constraints, computed before the loop, and every sample handed to
    the sink carries that same count. *)
Theorem audio_samples_carry_sample_count (opts : MediaDevicesOptions)
    (c : MediaTrackConstraints W) (w : W) (sched : list action) :
  ctor_error (newAudioTrack opts c w) = None →
  let t := run sched (ctor_track (newAudioTrack opts c w)) in
  sampleSize t =
    uint32_of_float64 uint32_out_of_range
      (mul (of_int (prop.SampleRate (prop.Media_Audio (Media_ c))))
           (time.Seconds (prop.Latency (prop.Media_Audio (Media_ c))))) ∧
  Forall (λ s, Samples s = sampleSize t) (emitted t).
Proof.
  intros Hok t.
  destruct (run_annotated c sched _ (newAudioTrack_annotated opts c w Hok))
    as (_ & Hs & He).
  fold t in Hs, He. split; [exact Hs|]. by rewrite Hs.
Qed.

(** *** The constructors *)

(** Neither constructor closes the device, on any path. *)
Lemma newVideoTrack_never_closes (opts : MediaDevicesOptions)
    (c : MediaTrackConstraints W) (w : W) :
  EvClose ∉ trace (ctor_track (newVideoTrack opts c w)).
Proof.
  unfold newVideoTrack.
  destruct (newTrack _ _ w) as [[err|] w1]; simpl; [no_close|].
  destruct (Driver_Open w1) as [[err|] w2]; simpl; [no_close|].
  destruct (Driver_VideoRecord _ w2) as [[err|] w3]; simpl; [no_close|].
  destruct (VideoTransform c) as [f|]; simpl.
  - destruct (BuildVideoEncoder _ (f w3)) as [[err|] w4]; simpl; no_close.
  - destruct (BuildVideoEncoder _ w3) as [[err|] w4]; simpl; no_close.
Qed.

Lemma newAudioTrack_never_closes (opts : MediaDevicesOptions)
    (c : MediaTrackConstraints W) (w : W) :
  EvClose ∉ trace (ctor_track (newAudioTrack opts c w)).
Proof.
  unfold newAudioTrack.
  destruct (newTrack _ _ w) as [[err|] w1]; simpl; [no_close|].
  destruct (Driver_Open w1) as [[err|] w2]; simpl; [no_close|].
  destruct (Driver_AudioRecord _ w2) as [[err|] w3]; simpl; [no_close|].
  destruct (AudioTransform c) as [f|]; simpl.
  - destruct (BuildAudioEncoder _ (f w3)) as [[err|] w4]; simpl; no_close.
  - destruct (BuildAudioEncoder _ w3) as [[err|] w4]; simpl; no_close.
Qed.

End claims.

(** ** The claims on the test's collaborators *)

Import mock.

(** C1 (the code departs from it for audio). The claim: in the video and
    in the audio loop alike, an insufficient buffer with the required size
    [R] is answered by a read with a buffer of at least [R] bytes and never
    reaches the failure callback.  The video loop does so
    ([videoTrack_retries]).  The audio loop has no such case: on an audio
    track whose encoder answers the first read with an insufficient buffer
    of required size 2048, the loop returns after that one read of 1024
    bytes and the registered callback is called with the condition. *)
Theorem audioTrack_insufficient_buffer_ends_track :
  let t0 := OnEnded 1%nat
              (ctor_track (newAudioTrack opts audio_constraints
                             (device [Some (InsufficientBufferError 2048)]))) in
  loop t0 = Running (replicate 1024 Byte.x00) ∧
  loop (turn t0) = Returned (InsufficientBufferError 2048) ∧
  callbacks (turn t0) = [(1%nat, InsufficientBufferError 2048)] ∧
  read_sizes (start 5 t0) = [1024%nat].
Proof. by vm_compute. Qed.

(** The video loop on the same encoder: the second read has 4096 bytes
    and no callback is called. *)
Example videoTrack_insufficient_buffer_retried :
  let t0 := OnEnded 1%nat
              (ctor_track (newVideoTrack opts video_constraints
                             (device [Some (InsufficientBufferError 2048)]))) in
  callbacks (start 3 t0) = [] ∧
  read_sizes (start 3 t0) = [1024%nat; 4096%nat; 4096%nat].
Proof. by vm_compute. Qed.

(** C2, as stated, fails: the read that follows [Stop] ends in the
    failure callback.  The test's video track with a callback registered:
    after a turn, [Stop], and the next turn, whose read answers [io.EOF],
    the callback was called with [io.EOF]. *)
Lemma Stop_then_EOF_reaches_callback :
  let t0 := OnEnded 1%nat
              (ctor_track (newVideoTrack opts video_constraints (device []))) in
  let t := run [Turn; CallStop; Turn] t0 in
  ctor_error (newVideoTrack opts video_constraints (device [])) = None ∧
  loop t = Returned EOF ∧
  callbacks t = [(1%nat, EOF)] ∧
  callbacks t ≠ [].
Proof. by vm_compute. Qed.

Lemma Stop_closes_and_read_error_is_reported_witness :
  let t := turn (OnEnded 1%nat
              (ctor_track (newAudioTrack opts audio_constraints (device [])))) in
  let buff := replicate 1024 Byte.x00 in
  loop t = Running buff ∧
  onErrorHandler t = Some 1%nat ∧
  Encoder_Read buff (world (Stop t)) = (buff, 0, Some EOF, world (Stop t)) ∧
  (∀ R, EOF ≠ InsufficientBufferError R) ∧
  world (Stop t) = (Encoder_Close (Driver_Close (world t)).2).2 ∧
  trace (Stop t) = trace t ++ [EvClose; EvEncoderClose] ∧
  loop (turn (Stop t)) = Returned EOF ∧
  callbacks (turn (Stop t)) = callbacks t ++ [(1%nat, EOF)].
Proof.
  intros t buff.
  assert (loop t = Running buff) as Hl by (by vm_compute).
  assert (onErrorHandler t = Some 1%nat) as Hh by (by vm_compute).
  assert (Encoder_Read buff (world (Stop t)) = (buff, 0, Some EOF, world (Stop t)))
    as Hr by (by vm_compute).
  assert (∀ R, EOF ≠ InsufficientBufferError R) as Herr by (intros R; discriminate).
  split; [exact Hl|]. split; [exact Hh|]. split; [exact Hr|]. split; [exact Herr|].
  exact (Stop_closes_and_read_error_is_reported t buff buff 0 EOF
           (world (Stop t)) 1%nat Hl Hh Hr Herr).
Defined.

(** C4 (the code departs from it). The claim: when the track cannot be
    made after the device was opened, the device is released before the
    constructor returns its error.  Neither constructor closes the device
    on any path ([newVideoTrack_never_closes],
    [newAudioTrack_never_closes]).  With the test's broken constraints
    (bit rate 0, which the encoder builder refuses) [newVideoTrack]
    returns the builder's error after it opened the device and got the
    raw source, and leaves the device open; so it does when the recorder
    refuses. *)
Theorem newVideoTrack_leaves_device_open :
  let wrong := track_constraints (media "MockVideo" 640 480 "" 0 0 0) in
  let r := newVideoTrack opts wrong (device []) in
  let refuses := {| opened := false; closed := false;
                    record_error := Some (errorString "no such format");
                    script := [] |} in
  let r' := newAudioTrack opts audio_constraints refuses in
  ctor_error r = Some (errorString "wrong codec parameter") ∧
  trace (ctor_track r) =
    [EvOpen None; EvRecord None;
     EvBuildEncoder (Some (errorString "wrong codec parameter"))] ∧
  opened (world (ctor_track r)) = true ∧
  loop (ctor_track r) = NotStarted ∧
  ctor_error r' = Some (errorString "no such format") ∧
  trace (ctor_track r') =
    [EvOpen None; EvRecord (Some (errorString "no such format"))] ∧
  opened (world (ctor_track r')) = true.
Proof. by vm_compute. Qed.

Lemma failure_callback_fires_once_witness :
  let t0 := ctor_track (newVideoTrack opts video_constraints
                          (device [None; Some (errorString "device lost")])) in
  callbacks t0 = [] ∧
  (length (callbacks (run [Turn; CallOnEnded 1%nat; Turn; Turn; CallStop] t0)) ≤ 1)%nat ∧
  callbacks (run ([CallOnEnded 1%nat; Turn] ++ Turn :: [CallOnEnded 2%nat; Turn; CallStop; Turn]) t0)
    = [(1%nat, errorString "device lost")].
Proof.
  intros t0.
  assert (callbacks t0 = []) as Hc by (by vm_compute).
  destruct (failure_callback_fires_once t0 Hc) as [Hmost Hexact].
  split; [exact Hc|]. split; [apply Hmost|].
  apply Hexact with (replicate 1024 Byte.x00); by vm_compute.
Defined.

Lemma audio_samples_carry_sample_count_witness :
  let t := run [Turn; CallOnEnded 1%nat; Turn; CallStop; Turn]
             (ctor_track (newAudioTrack opts audio_constraints (device []))) in
  ctor_error (newAudioTrack opts audio_constraints (device [])) = None ∧
  sampleSize t =
    uint32_of_float64 uint32_out_of_range
      (mul (of_int (prop.SampleRate (prop.Media_Audio (Media_ audio_constraints))))
           (time.Seconds (prop.Latency (prop.Media_Audio (Media_ audio_constraints))))) ∧
  Forall (λ s, Samples s = sampleSize t) (emitted t).
Proof.
  intros t.
  assert (ctor_error (newAudioTrack opts audio_constraints (device [])) = None)
    as Hok by (by vm_compute).
  split; [exact Hok|].
  exact (audio_samples_carry_sample_count opts audio_constraints (device [])
           [Turn; CallOnEnded 1%nat; Turn; CallStop; Turn] Hok).
Defined.

(** The samples of that run: two of them, 960 each, for 48 kHz and
    20 ms. *)
Example audio_samples_960 :
  let t := run [Turn; CallOnEnded 1%nat; Turn; CallStop; Turn]
             (ctor_track (newAudioTrack opts audio_constraints (device []))) in
  map Samples (emitted t) = [960; 960].
Proof. by vm_compute. Qed.

End track_facts.

(** ** More on the fitness distance *)

Module distance_facts.
Import prop spec prop_facts.

(** *** The sign of the distance *)








Section sign.
Context `{Strconv}.



(** *** When the loop panics *)

Lemma visit_panics_mixed (dist : float64) (actual ideal msg : string) :
  visit dist (actual, ideal) = Panic msg → mixed actual ideal.
Proof.
  unfold visit, mixed. destruct (String.eqb actual ideal); [done|]. simpl.
  destruct (ParseFloat actual) as [a|], (ParseFloat ideal) as [i|]; try done; intros _.
  - left. split; [by eexists|done].
  - right. split; [done|by eexists].
Qed.

Lemma visit_all_panics_mixed (entries : list (string * string)) :
  ∀ (dist : float64) (msg : string),
    visit_all dist entries = Panic msg →
    ∃ actual ideal, (actual, ideal) ∈ entries ∧ mixed actual ideal.
Proof.
  induction entries as [|entry rest IH]; intros dist msg; simpl; [done|].
  destruct (visit dist entry) as [dist'|msg'] eqn:Hv.
  - intros (a & i & Hin & Hm)%IH. exists a, i. split; [by right|done].
  - intros _. destruct entry as [actual ideal].
    exists actual, ideal. split; [by left|]. by eapply visit_panics_mixed.
Qed.

End sign.

(** *** The entries of the map of a pair of Media *)

Lemma Media_comparisons_list (p o : Media) :
  Media_comparisons p o = list_to_map (reverse (field_pairs p o)).
Proof. reflexivity. Qed.

Lemma Media_comparisons_lookup (p o : Media) (k v : string) :
  Media_comparisons p o !! k = Some v → (k, v) ∈ field_pairs p o.
Proof.
  rewrite Media_comparisons_list. intros Hl%elem_of_list_to_map_2.
  by apply elem_of_reverse in Hl.
Qed.

Lemma Media_comparisons_keys (p o : Media) (kv : string * string) :
  kv ∈ field_pairs p o → is_Some (Media_comparisons p o !! kv.1).
Proof.
  intros Hin. rewrite Media_comparisons_list.
  apply not_eq_None_Some. intros Hnone%not_elem_of_list_to_map_2.
  apply Hnone. rewrite fmap_reverse, elem_of_reverse.
  by apply list_elem_of_fmap_2.
Qed.

Lemma same_fields_pairs (p o : Media) (k v : string) :
  same_compared_fields p o → (k, v) ∈ field_pairs p o → k = v.
Proof.
  intros (Hw & Hh & Hf & Hs & Hl). unfold field_pairs.
  rewrite Hw, Hh, Hf, Hs, Hl.
  intros Hin. repeat (apply elem_of_cons in Hin as [[= -> ->]|Hin]; [done|]).
  by apply elem_of_nil in Hin.
Qed.

(** *** Properties of the distance *)

(** X1. Two [Media] that agree on the five compared fields are at
    distance 0, for every [ParseFloat] and every order of the visit, also
    when their other fields differ and when the values would not parse. *)
Theorem FitnessDistance_same_fields_zero `{Strconv} `{MapRange} (p o : Media) :
  same_compared_fields p o → FitnessDistance p o = Return zero.
Proof.
  intros Hs. unfold FitnessDistance, fitnessDistance. apply visit_all_equal.
  rewrite range_perm. apply Forall_forall.
  intros [k v] Hin%elem_of_map_to_list. simpl.
  eapply same_fields_pairs; [done|]. by apply Media_comparisons_lookup.
Qed.

Lemma FitnessDistance_same_fields_zero_witness :
  let p := mock.media "VP8" 640 480 "I420" 48000 20000000 100000 in
  let o := mock.media "H264" 640 480 "I420" 48000 20000000 0 in
  same_compared_fields p o ∧
  @FitnessDistance strconv.Strconv_int MapRange_to_list p o = Return zero.
Proof.
  intros p o.
  assert (same_compared_fields p o) as Hs by (by repeat split).
  split; [exact Hs|].
  exact (@FitnessDistance_same_fields_zero strconv.Strconv_int MapRange_to_list p o Hs).
Defined.

(** X2. [fitnessDistance] ends in one of two ways, whatever the order of
    the visit: it panics, with its one message, and then the map holds an
    entry of which exactly one value parses as a number; or it returns a
    distance, and then the map holds no such entry. *)
Theorem fitnessDistance_panics_only_when_mixed
    `{Strconv} `{MapRange} (c : gmap string string) :
  (fitnessDistance c = Panic mix_panic ∧
   ∃ actual ideal, c !! actual = Some ideal ∧ mixed actual ideal) ∨
  ((∃ d, fitnessDistance c = Return d) ∧
   ∀ actual ideal, c !! actual = Some ideal → ¬ mixed actual ideal).
Proof.
  unfold fitnessDistance. destruct (visit_all zero (range c)) as [d|msg] eqn:Hv.
  - right. split; [by exists d|]. intros actual ideal Hc Hm.
    rewrite (visit_all_mixed (range c) actual ideal) in Hv; [done| |done].
    rewrite range_perm. by apply elem_of_map_to_list.
  - left. rewrite (visit_all_panic _ _ _ Hv). split; [done|].
    destruct (visit_all_panics_mixed _ _ _ Hv) as (actual & ideal & Hin & Hm).
    exists actual, ideal. split; [|done].
    apply elem_of_map_to_list. by rewrite <- range_perm.
Qed.



(** X4. The map that [FitnessDistance] builds pairs the actual value of a
    field with the ideal value of the same field only; every actual value
    is a key of it; and the latency pair, added last, is always in it. *)
Theorem Media_comparisons_are_field_pairs (p o : Media) :
  (∀ k v, Media_comparisons p o !! k = Some v → (k, v) ∈ field_pairs p o) ∧
  (∀ kv, kv ∈ field_pairs p o → is_Some (Media_comparisons p o !! kv.1)) ∧
  Media_comparisons p o !! Sprint (VDuration (Latency p))
    = Some (Sprint (VDuration (Latency o))).
Proof.
  split; [|split].
  - apply Media_comparisons_lookup.
  - apply Media_comparisons_keys.
  - unfold Media_comparisons, add. apply lookup_insert_eq.
Qed.

(** X5. [FitnessDistance] returns a distance, and does not panic, whenever
    none of the five field pairs has exactly one value that parses as a
    number, in every order of the visit and also when fields share a
    key. *)
Theorem FitnessDistance_returns_unless_mixed `{Strconv} `{MapRange} (p o : Media) :
  (∀ kv, kv ∈ field_pairs p o → ¬ mixed kv.1 kv.2) →
  ∃ d, FitnessDistance p o = Return d.
Proof.
  intros Hnm. unfold FitnessDistance, fitnessDistance.
  destruct (visit_all zero (range (Media_comparisons p o))) as [d|msg] eqn:Hv;
    [by exists d|].
  destruct (visit_all_panics_mixed _ _ _ Hv) as (actual & ideal & Hin & Hm).
  destruct (Hnm (actual, ideal)); [|done].
  apply Media_comparisons_lookup, elem_of_map_to_list. by rewrite <- range_perm.
Qed.

Lemma FitnessDistance_returns_unless_mixed_witness :
  let p := mock.media "" 640 480 "I420" 0 0 0 in
  let o := mock.media "" 1280 720 "" 48000 20000000 0 in
  (∀ kv, kv ∈ field_pairs p o → ¬ @mixed strconv.Strconv_int kv.1 kv.2) ∧
  ∃ d, @FitnessDistance strconv.Strconv_int MapRange_to_list p o = Return d.
Proof.
  intros p o.
  assert (∀ kv, kv ∈ field_pairs p o → ¬ @mixed strconv.Strconv_int kv.1 kv.2) as Hnm.
  { intros kv Hin.
    repeat (apply elem_of_cons in Hin as [->|Hin];
            [intros [[[x Hx] Hn]|[Hn [x Hx]]]; vm_compute in Hx, Hn; discriminate|]).
    by apply elem_of_nil in Hin. }
  split; [exact Hnm|].
  exact (@FitnessDistance_returns_unless_mixed strconv.Strconv_int MapRange_to_list p o Hnm).
Defined.

End distance_facts.

(** ** More on the life of a track *)

Module lifecycle_facts.
Import mediadevices conditions track_facts.

Section lifecycle.
Context {W : Type} `{Devices W}.

(** *** A goroutine that is not in its loop *)

Lemma read_sizes_Stop (t : track W) : read_sizes (Stop t) = read_sizes t.
Proof.
  unfold Stop. destruct (Driver_Close (world t)) as [e1 w1]. simpl.
  destruct (Encoder_Close w1) as [e2 w2].
  rewrite read_sizes_log, read_sizes_set_world, read_sizes_log, read_sizes_set_world.
  by rewrite !app_nil_r.
Qed.

Lemma act_idle (a : action) (t : track W) :
  idle (loop t) →
  loop (act a t) = loop t ∧ callbacks (act a t) = callbacks t ∧
  read_sizes (act a t) = read_sizes t ∧ emitted (act a t) = emitted t.
Proof.
  intros Hi. destruct a; simpl.
  - by rewrite turn_not_running.
  - done.
  - by rewrite loop_Stop, callbacks_Stop, read_sizes_Stop, emitted_Stop.
Qed.

Lemma run_idle (sched : list action) :
  ∀ t : track W,
    idle (loop t) →
    loop (run sched t) = loop t ∧ callbacks (run sched t) = callbacks t ∧
    read_sizes (run sched t) = read_sizes t ∧ emitted (run sched t) = emitted t.
Proof.
  induction sched as [|a sched IH]; intros t Hi; [done|].
  rewrite run_cons. destruct (act_idle a t Hi) as (Hl & Hc & Hr & He).
  destruct (IH (act a t)) as (Hl' & Hc' & Hr' & He'); [by rewrite Hl|].
  repeat split; congruence.
Qed.

(** *** What a turn emits *)

Lemma emitted_turn (t : track W) :
  emitted (turn t) = emitted t ∨ ∃ s, emitted (turn t) = emitted t ++ [s].
Proof.
  unfold turn. destruct (loop t) as [|buff|err|msg]; try (by left).
  destruct (track_kind t);
    unfold videoTrack_turn, audioTrack_turn, encoder_Read, sampler_sample, WriteSample;
    destruct (Encoder_Read buff (world t)) as [[[buff' n] err] w].
  - destruct err as [err|].
    + left. destruct err as [|R|msg]; [by emitted_simpl| |by emitted_simpl].
      destruct (make_bytes _); by emitted_simpl.
    + destruct (slice_to buff' n) as [b|msg]; [|left; by emitted_simpl]. simpl.
      destruct (sampler_samples w) as [samples w1]. simpl.
      destruct (LocalTrack_WriteSample _ w1) as [[err|] w2];
        right; eexists; by emitted_simpl.
  - destruct err as [err|]; [left; by emitted_simpl|].
    destruct (slice_to buff' n) as [b|msg]; [|left; by emitted_simpl]. simpl.
    destruct (LocalTrack_WriteSample _ w) as [[err|] w2];
      right; eexists; by emitted_simpl.
Qed.

Lemma onErrorHandler_turn (t : track W) :
  onErrorHandler (turn t) = onErrorHandler t.
Proof.
  assert (∀ err (t' : track W), onErrorHandler (onError err t') = onErrorHandler t')
    as Hon by (intros err t'; unfold onError; by destruct (onErrorHandler t') eqn:E).
  unfold turn. destruct (loop t) as [|buff|err|msg]; try done.
  destruct (track_kind t);
    unfold videoTrack_turn, audioTrack_turn, encoder_Read, sampler_sample, WriteSample;
    destruct (Encoder_Read buff (world t)) as [[[buff' n] err] w].
  - destruct err as [err|].
    + destruct err as [|R|msg]; simpl; rewrite ?Hon; try done.
      by destruct (make_bytes _).
    + destruct (slice_to buff' n) as [b|msg]; [|done]. simpl.
      destruct (sampler_samples w) as [samples w1]. simpl.
      destruct (LocalTrack_WriteSample _ w1) as [[err|] w2]; simpl; by rewrite ?Hon.
  - destruct err as [err|]; simpl; rewrite ?Hon; [done|].
    destruct (slice_to buff' n) as [b|msg]; [|done]. simpl.
    destruct (LocalTrack_WriteSample _ w) as [[err|] w2]; simpl; by rewrite ?Hon.
Qed.

(** *** The codec of a track *)

Lemma find_codec_none (l : list RTPCodec) (name : string) :
  Forall (λ x, Name x ≠ name) l →
  List.find (λ x, String.eqb (Name x) name) l = None.
Proof.
  induction 1 as [|x l Hx _ IH]; simpl; [done|].
  apply String.eqb_neq in Hx. by rewrite Hx.
Qed.

Lemma find_codec_first (l1 l2 : list RTPCodec) (x : RTPCodec) (name : string) :
  Forall (λ y, Name y ≠ name) l1 → Name x = name →
  List.find (λ y, String.eqb (Name y) name) (l1 ++ x :: l2) = Some x.
Proof.
  intros Hl1 Hx. induction Hl1 as [|y l1 Hy _ IH]; simpl.
  - apply String.eqb_eq in Hx. by rewrite Hx.
  - apply String.eqb_neq in Hy. by rewrite Hy.
Qed.

(** *** The constructors *)

Lemma newVideoTrack_fails_fast (opts : MediaDevicesOptions)
    (c : MediaTrackConstraints W) (w : W) :
  fails_fast (newVideoTrack opts c w).
Proof.
  unfold fails_fast, newVideoTrack.
  destruct (newTrack _ _ w) as [[err|] w1]; simpl; [by auto|].
  destruct (Driver_Open w1) as [[err|] w2]; simpl; [by auto|].
  destruct (Driver_VideoRecord _ w2) as [[err|] w3]; simpl; [by auto|].
  destruct (VideoTransform c) as [f|]; simpl.
  - destruct (BuildVideoEncoder _ (f w3)) as [[err|] w4]; simpl; by auto 6.
  - destruct (BuildVideoEncoder _ w3) as [[err|] w4]; simpl; by auto 6.
Qed.

Lemma newAudioTrack_fails_fast (opts : MediaDevicesOptions)
    (c : MediaTrackConstraints W) (w : W) :
  fails_fast (newAudioTrack opts c w).
Proof.
  unfold fails_fast, newAudioTrack.
  destruct (newTrack _ _ w) as [[err|] w1]; simpl; [by auto|].
  destruct (Driver_Open w1) as [[err|] w2]; simpl; [by auto|].
  destruct (Driver_AudioRecord _ w2) as [[err|] w3]; simpl; [by auto|].
  destruct (AudioTransform c) as [f|]; simpl.
  - destruct (BuildAudioEncoder _ (f w3)) as [[err|] w4]; simpl; by auto 6.
  - destruct (BuildAudioEncoder _ w3) as [[err|] w4]; simpl; by auto 6.
Qed.

(** A constructor that failed left no goroutine, and so nothing ever
    reads, emits or calls back. *)
Lemma failed_constructor_quiet (r : @constructed W) (sched : list action) :
  fails_fast r → ctor_error r ≠ None →
  callbacks (run sched (ctor_track r)) = [] ∧
  read_sizes (run sched (ctor_track r)) = [] ∧
  emitted (run sched (ctor_track r)) = [].
Proof.
  unfold fails_fast. destruct (ctor_error r) as [err|]; [|done].
  intros [Hl Ht] _.
  destruct (run_idle sched (ctor_track r)) as (_ & -> & -> & ->).
  { intros buff. by rewrite Hl. }
  unfold callbacks, read_sizes, emitted.
  by destruct Ht as [->|[->|[->| ->]]].
Qed.

(** X6. A codec name that is not among the registered codecs of the kind
    makes the constructor return the error ["track: NAME is not registered
    in media engine"] before it touches anything: the device is not opened,
    the outside is as it was, no goroutine is launched. *)
Theorem constructors_reject_unregistered_codec (opts : MediaDevicesOptions)
    (c : MediaTrackConstraints W) (w : W) :
  let name := prop.CodecName (prop.Media_Codec (Media_ c)) in
  let err := errorString ("track: " +:+ name +:+ " is not registered in media engine") in
  (Forall (λ x, Name x ≠ name) (codecs opts RTPCodecTypeVideo) →
   let r := newVideoTrack opts c w in
   ctor_error r = Some err ∧ world (ctor_track r) = w ∧
   trace (ctor_track r) = [] ∧ loop (ctor_track r) = NotStarted) ∧
  (Forall (λ x, Name x ≠ name) (codecs opts RTPCodecTypeAudio) →
   let r := newAudioTrack opts c w in
   ctor_error r = Some err ∧ world (ctor_track r) = w ∧
   trace (ctor_track r) = [] ∧ loop (ctor_track r) = NotStarted).
Proof.
  intros name err. split; intros Hno r; subst r;
    unfold newVideoTrack, newAudioTrack, newTrack;
    fold name; by rewrite (find_codec_none _ _ Hno).
Qed.

(** X7. Both constructors stop at the first step that fails and return its
    error: after a failure the later steps were not called and the goroutine
    is not launched, so that nothing is ever read, emitted or called back
    for that call; the goroutine runs, with a buffer of 1024 bytes, exactly
    when the device was opened, the raw source taken and the encoder
    built. *)
Theorem constructors_fail_fast (opts : MediaDevicesOptions)
    (c : MediaTrackConstraints W) (w : W) :
  fails_fast (newVideoTrack opts c w) ∧
  fails_fast (newAudioTrack opts c w) ∧
  ∀ (r : @constructed W) (sched : list action),
    r = newVideoTrack opts c w ∨ r = newAudioTrack opts c w →
    ctor_error r ≠ None →
    callbacks (run sched (ctor_track r)) = [] ∧
    read_sizes (run sched (ctor_track r)) = [] ∧
    emitted (run sched (ctor_track r)) = [].
Proof.
  split; [apply newVideoTrack_fails_fast|].
  split; [apply newAudioTrack_fails_fast|].
  intros r sched [-> | ->] Herr; apply failed_constructor_quiet; try done.
  - apply newVideoTrack_fails_fast.
  - apply newAudioTrack_fails_fast.
Qed.

(** X16. Of several registered codecs of the same name [newTrack] takes
    the first: its payload type, kind and codec go to the track generator,
    and a later codec of that name is never used. *)
Theorem newTrack_takes_first_codec (l1 l2 : list RTPCodec) (x : RTPCodec)
    (name : string) (w : W) :
  Forall (λ y, Name y ≠ name) l1 →
  Name x = name →
  newTrack (l1 ++ x :: l2) name w =
    trackGenerator (PayloadType x) (rand_Uint32 w).1 (Driver_ID (rand_Uint32 w).2)
      (RTPCodecType_String (Type_ x)) x (rand_Uint32 w).2.
Proof.
  intros Hl1 Hx. unfold newTrack. rewrite (find_codec_first l1 l2 x name Hl1 Hx).
  by destruct (rand_Uint32 w).
Qed.

(** *** The goroutine out of its loop *)

(** X8. A goroutine that is not in its loop, because the constructor
    failed, the loop returned or it panicked, stays so: whatever is
    scheduled afterwards, turns, [Stop] or [OnEnded], nothing more is read
    from the encoder, handed to the sink or passed to a callback. *)
Theorem idle_goroutine_stays_idle (t : track W) (sched : list action) :
  idle (loop t) →
  loop (run sched t) = loop t ∧
  callbacks (run sched t) = callbacks t ∧
  read_sizes (run sched t) = read_sizes t ∧
  emitted (run sched t) = emitted t.
Proof. apply run_idle. Qed.

(** X14. An error that ends the loop while no callback is registered is
    lost: no callback is called for it, and none is called later either,
    also when [OnEnded] registers one afterwards. *)
Theorem error_without_callback_is_lost (t : track W) (buff : list Byte.byte)
    (err : error) (sched : list action) :
  loop t = Running buff →
  onErrorHandler t = None →
  loop (turn t) = Returned err →
  callbacks (run sched (turn t)) = callbacks t.
Proof.
  intros Hl Hh Hret.
  destruct (run_idle sched (turn t)) as (_ & -> & _).
  { intros b. by rewrite Hret. }
  destruct (turn_result_running buff t Hl) as [Hgo Hc|err' _ Hc]; [done|].
  by rewrite Hc, Hh, app_nil_r.
Qed.

(** *** Stop *)

(** X9. [Stop] has no guard and does not touch the goroutine: a loop that
    runs still runs after it, with its buffer and its callback, and its next
    turn reads from the encoder again; a second [Stop] closes the device and
    the encoder a second time. *)
Theorem Stop_does_not_end_loop (t : track W) (buff : list Byte.byte) :
  loop t = Running buff →
  loop (Stop t) = Running buff ∧
  onErrorHandler (Stop t) = onErrorHandler t ∧
  read_sizes (turn (Stop t)) = read_sizes t ++ [length buff] ∧
  trace (Stop (Stop t)) =
    trace t ++ [EvClose; EvEncoderClose; EvClose; EvEncoderClose].
Proof.
  intros Hl.
  assert (loop (Stop t) = Running buff) as Hl' by (by rewrite loop_Stop).
  split; [done|]. split; [apply onErrorHandler_Stop|]. split.
  - by rewrite (read_sizes_turn _ _ Hl'), read_sizes_Stop.
  - by rewrite !trace_Stop, <- app_assoc.
Qed.

(** *** One turn of a loop *)

(** X10. A turn of the audio loop whose read succeeds with a count [n]
    within the buffer hands exactly one sample to the sink, after the read:
    the first [n] bytes of the buffer with the loop's sample count; when the
    sink takes it, the loop goes on with the same buffer and no callback is
    called. *)
Theorem audioTrack_emits_read_bytes (t : track W) (buff buff' : list Byte.byte)
    (n : Z) (w w' : W) :
  track_kind t = AudioTrack →
  loop t = Running buff →
  Encoder_Read buff (world t) = (buff', n, None, w) →
  0 ≤ n ≤ Z.of_nat (length buff') →
  LocalTrack_WriteSample
    {| Data := take (Z.to_nat n) buff'; Samples := sampleSize t |} w = (None, w') →
  loop (turn t) = Running buff' ∧
  world (turn t) = w' ∧
  emitted (turn t) =
    emitted t ++ [{| Data := take (Z.to_nat n) buff'; Samples := sampleSize t |}] ∧
  trace (turn t) =
    trace t ++ [EvRead (length buff) n None;
                EvWriteSample {| Data := take (Z.to_nat n) buff';
                                 Samples := sampleSize t |} None] ∧
  callbacks (turn t) = callbacks t.
Proof.
  intros Hk Hl Hr Hn Hw. unfold turn. rewrite Hl, Hk.
  unfold audioTrack_turn, encoder_Read, WriteSample, slice_to. rewrite Hr.
  destruct (n <? 0) eqn:H1; [lia|]. destruct (Z.of_nat (length buff') <? n) eqn:H2; [lia|].
  simpl. rewrite Hw. simpl. repeat split.
  - unfold emitted. simpl. rewrite !omap_app. simpl. by rewrite app_nil_r.
  - by rewrite <- app_assoc.
  - unfold callbacks. simpl. rewrite !omap_app. simpl. by rewrite !app_nil_r.
Qed.

(** X11. A read that reports a count outside the buffer, negative or
    above its length, makes the goroutine of either loop panic at the slice
    expression: nothing is handed to the sink and no callback is called. *)
Theorem read_count_out_of_range_panics (t : track W) (buff buff' : list Byte.byte)
    (n : Z) (w : W) :
  loop t = Running buff →
  Encoder_Read buff (world t) = (buff', n, None, w) →
  n < 0 ∨ Z.of_nat (length buff') < n →
  loop (turn t) = Panicked "slice bounds out of range" ∧
  emitted (turn t) = emitted t ∧
  callbacks (turn t) = callbacks t.
Proof.
  intros Hl Hr Hn. unfold turn. rewrite Hl.
  assert (slice_to buff' n = Panic "slice bounds out of range") as Hs.
  { unfold slice_to. destruct (n <? 0) eqn:H1; [done|].
    destruct (Z.of_nat (length buff') <? n) eqn:H2; [done|]. lia. }
  destruct (track_kind t);
    unfold videoTrack_turn, audioTrack_turn, encoder_Read; rewrite Hr, Hs;
    (split; [done|]); split; [by emitted_simpl|by callbacks_simpl|by emitted_simpl|by callbacks_simpl].
Qed.

(** X13. The video loop on an insufficient buffer with a required size
    [R] that is not negative: no callback is called and nothing is emitted;
    the loop goes on with a new buffer of exactly [2*R] bytes, unless [2*R]
    is more than the runtime allocates or wraps around below zero, and then
    the goroutine panics in [make]. *)
Theorem videoTrack_insufficient_buffer (t : track W) (buff buff' : list Byte.byte)
    (n R : Z) (w : W) :
  track_kind t = VideoTrack →
  loop t = Running buff →
  Encoder_Read buff (world t) = (buff', n, Some (InsufficientBufferError R), w) →
  0 ≤ R → is_int R →
  callbacks (turn t) = callbacks t ∧
  emitted (turn t) = emitted t ∧
  ((2 * R ≤ maxAlloc ∧
    loop (turn t) = Running (replicate (Z.to_nat (2 * R)) Byte.x00)) ∨
   (maxAlloc < 2 * R ∧
    loop (turn t) = Panicked "makeslice: len out of range")).
Proof.
  intros Hk Hl Hr HR [_ Hint]. unfold turn. rewrite Hl, Hk.
  unfold videoTrack_turn, encoder_Read. rewrite Hr.
  assert (make_bytes (wrap_int (2 * R)) =
            if 2 * R <=? maxAlloc
            then Return (replicate (Z.to_nat (2 * R)) Byte.x00)
            else Panic "makeslice: len out of range") as ->.
  { unfold maxAlloc. destruct (2 * R <=? 2 ^ 48) eqn:Hle.
    - rewrite wrap_int_small by lia. apply make_bytes_ok. unfold maxAlloc. lia.
    - unfold make_bytes, maxAlloc.
      destruct (Z_lt_ge_dec (2 * R) (2 ^ 63)) as [Hs|Hs].
      + rewrite wrap_int_small by lia.
        destruct (2 * R <? 0) eqn:H1; [done|].
        destruct (2 ^ 48 <? 2 * R) eqn:H2; [done|]. lia.
      + assert (wrap_int (2 * R) = 2 * R - 2 ^ 64) as ->.
        { unfold wrap_int.
          replace (2 * R + 2 ^ 63) with (2 * R - 2 ^ 63 + 1 * 2 ^ 64) by lia.
          rewrite Z.mod_add by lia. rewrite Z.mod_small; lia. }
        destruct (2 * R - 2 ^ 64 <? 0) eqn:H1; [done|]. lia. }
  destruct (2 * R <=? maxAlloc) eqn:Hle.
  - split; [by callbacks_simpl|]. split; [by emitted_simpl|]. left. split; [lia|done].
  - split; [by callbacks_simpl|]. split; [by emitted_simpl|]. right. split; [lia|done].
Qed.

(** *** Over a schedule *)

Lemma act_grows (a : action) (t : track W) :
  ∃ samples reads,
    emitted (act a t) = emitted t ++ samples ∧
    read_sizes (act a t) = read_sizes t ++ reads ∧
    (length samples ≤ length reads)%nat.
Proof.
  destruct a; simpl.
  - destruct (loop t) as [|buff|err|msg] eqn:Hl;
      try (rewrite turn_not_running by (intros b; by rewrite Hl);
           exists [], []; by rewrite !app_nil_r).
    exists (drop (length (emitted t)) (emitted (turn t))), [length buff].
    rewrite (read_sizes_turn _ _ Hl). split; [|split; [done|]].
    + destruct (emitted_turn t) as [->|[s ->]].
      * by rewrite drop_all, app_nil_r.
      * by rewrite drop_app_length.
    + destruct (emitted_turn t) as [->|[s ->]].
      * rewrite drop_all. simpl. lia.
      * by rewrite drop_app_length.
  - exists [], []. by rewrite !app_nil_r.
  - exists [], []. by rewrite emitted_Stop, read_sizes_Stop, !app_nil_r.
Qed.

(** X12. Over every schedule, the samples handed to the sink and the
    reads of the encoder only grow, and there are never more new samples
    than new reads: every sample follows a read of its own. *)
Theorem samples_follow_reads (sched : list action) (t : track W) :
  ∃ samples reads,
    emitted (run sched t) = emitted t ++ samples ∧
    read_sizes (run sched t) = read_sizes t ++ reads ∧
    (length samples ≤ length reads)%nat.
Proof.
  revert t. induction sched as [|a sched IH]; intros t.
  - exists [], []. by rewrite !app_nil_r.
  - rewrite run_cons.
    destruct (act_grows a t) as (s1 & r1 & He1 & Hr1 & Hle1).
    destruct (IH (act a t)) as (s2 & r2 & He2 & Hr2 & Hle2).
    exists (s1 ++ s2), (r1 ++ r2).
    rewrite He2, Hr2, He1, Hr1, <- !app_assoc, !length_app.
    repeat split. lia.
Qed.

(** What the audio loop keeps of its buffer. *)
Lemma act_audio_buffer (a : action) (t : track W) :
  keeps_length →
  track_kind t = AudioTrack ∧
  (∀ buff, loop t = Running buff → length buff = 1024%nat) ∧
  Forall (λ len, len = 1024%nat) (read_sizes t) →
  track_kind (act a t) = AudioTrack ∧
  (∀ buff, loop (act a t) = Running buff → length buff = 1024%nat) ∧
  Forall (λ len, len = 1024%nat) (read_sizes (act a t)).
Proof.
  intros Hkeep (Hk & Hb & Hr). destruct a; simpl.
  - destruct (loop t) as [|buff|err|msg] eqn:Hl;
      try (rewrite turn_not_running by (intros b; by rewrite Hl);
           by rewrite Hl).
    split; [|split].
    + unfold turn. rewrite Hl, Hk. unfold audioTrack_turn, encoder_Read, WriteSample.
      destruct (Encoder_Read buff (world t)) as [[[buff' n] err] w].
      destruct err as [err|]; simpl; [by rewrite track_kind_onError|].
      destruct (slice_to buff' n) as [b|msg]; [|done]. simpl.
      destruct (LocalTrack_WriteSample _ w) as [[err|] w2]; simpl;
        by rewrite ?track_kind_onError.
    + pose proof (Hkeep buff (world t)) as Hlen.
      unfold turn. rewrite Hl, Hk. unfold audioTrack_turn, encoder_Read, WriteSample.
      destruct (Encoder_Read buff (world t)) as [[[buff' n] err] w]. simpl in Hlen.
      destruct err as [err|]; simpl; [done|].
      destruct (slice_to buff' n) as [b|msg]; [|done]. simpl.
      destruct (LocalTrack_WriteSample _ w) as [[err|] w2]; simpl; [done|].
      intros b' [= <-]. rewrite Hlen. by apply Hb.
    + rewrite (read_sizes_turn _ _ Hl). apply Forall_app. split; [done|].
      constructor; [by apply Hb|done].
  - done.
  - by rewrite track_kind_Stop, loop_Stop, read_sizes_Stop.
Qed.

(** X15. The audio loop never changes its buffer: with an encoder that,
    as every Go [Read], leaves the length of the slice alone, every read of
    an audio track is a read with 1024 bytes, in every schedule and whatever
    the encoder asks for. *)
Theorem audioTrack_always_reads_1024 (opts : MediaDevicesOptions)
    (c : MediaTrackConstraints W) (w : W) (sched : list action) :
  keeps_length →
  ctor_error (newAudioTrack opts c w) = None →
  Forall (λ len, len = 1024%nat)
    (read_sizes (run sched (ctor_track (newAudioTrack opts c w)))).
Proof.
  intros Hkeep Hok.
  pose proof (newAudioTrack_fails_fast opts c w) as Hff.
  pose proof (newAudioTrack_annotated opts c w Hok) as (Hk & _).
  unfold fails_fast in Hff. rewrite Hok in Hff. destruct Hff as [Hl Ht].
  assert (∀ t : track W,
            track_kind t = AudioTrack ∧
            (∀ buff, loop t = Running buff → length buff = 1024%nat) ∧
            Forall (λ len, len = 1024%nat) (read_sizes t) →
            Forall (λ len, len = 1024%nat) (read_sizes (run sched t))) as Hrun.
  { induction sched as [|a sched IH]; intros t Hinv; [by destruct Hinv as (_ & _ & ?)|].
    rewrite run_cons. by apply IH, act_audio_buffer. }
  apply Hrun. split; [done|]. split.
  - intros buff Hb. rewrite Hl in Hb.
    apply (f_equal (λ g, match g with Running b => length b | _ => 0%nat end)) in Hb.
    rewrite length_replicate in Hb. by symmetry.
  - unfold read_sizes. rewrite Ht. simpl. constructor.
Qed.

(** What holds of the callbacks after the handlers [seen] were
    registered. *)
Lemma act_registered (a : action) (t : track W) (seen : list handler) :
  (∀ h, onErrorHandler t = Some h → h ∈ seen) ∧
  (∀ h err, (h, err) ∈ callbacks t → h ∈ seen ∧ loop t = Returned err) →
  (∀ h, onErrorHandler (act a t) = Some h → h ∈ seen ++ registered [a]) ∧
  (∀ h err, (h, err) ∈ callbacks (act a t) →
            h ∈ seen ++ registered [a] ∧ loop (act a t) = Returned err).
Proof.
  intros [Hh Hc]. destruct a; simpl; rewrite ?app_nil_r.
  - split; [by rewrite onErrorHandler_turn|].
    destruct (loop t) as [|buff|err0|msg] eqn:Hl;
      try (rewrite turn_not_running by (intros b; by rewrite Hl);
           by rewrite Hl).
    intros h err.
    destruct (turn_result_running buff t Hl) as [Hgo Heq|err' Hret Heq]; rewrite Heq.
    + intros Hin. destruct (Hc h err Hin) as [_ Hbad]. congruence.
    + intros [Hin|Hin]%elem_of_app.
      * destruct (Hc h err Hin) as [_ Hbad]. congruence.
      * destruct (onErrorHandler t) as [h'|] eqn:Hh'; [|by apply elem_of_nil in Hin].
        apply list_elem_of_singleton in Hin as [= -> ->]. split; [by apply Hh|done].
  - split.
    + intros h' [= <-]. apply elem_of_app. right. by apply list_elem_of_singleton.
    + intros h' err Hin. destruct (Hc h' err Hin) as [Hs Hl].
      split; [|done]. apply elem_of_app. by left.
  - rewrite onErrorHandler_Stop, callbacks_Stop, loop_Stop. by split.
Qed.

(** X17. A callback is called only if the schedule registered it with
    [OnEnded] before, and only with the error the loop returned with: from
    a track with no callback registered and none called, every call in every
    schedule is a call of a registered handler with that error. *)
Theorem callbacks_go_to_registered_handlers (sched : list action) (t : track W)
    (h : handler) (err : error) :
  onErrorHandler t = None →
  callbacks t = [] →
  (h, err) ∈ callbacks (run sched t) →
  h ∈ registered sched ∧ loop (run sched t) = Returned err.
Proof.
  intros Hnone Hempty.
  assert (∀ (l : list action) (t' : track W) (seen : list handler),
            (∀ h, onErrorHandler t' = Some h → h ∈ seen) ∧
            (∀ h err, (h, err) ∈ callbacks t' → h ∈ seen ∧ loop t' = Returned err) →
            (∀ h err, (h, err) ∈ callbacks (run l t') →
                      h ∈ seen ++ registered l ∧ loop (run l t') = Returned err)) as Hrun.
  { induction l as [|a l IH]; intros t' seen Hinv h' err'.
    - simpl. rewrite app_nil_r. apply Hinv.
    - rewrite run_cons. intros Hin.
      destruct (IH (act a t') (seen ++ registered [a]) (act_registered a t' seen Hinv) h' err' Hin)
        as [Hs Hl].
      split; [|done]. rewrite <- app_assoc in Hs.
      assert (registered [a] ++ registered l = registered (a :: l)) as Heq
        by (unfold registered; simpl; by destruct a).
      by rewrite Heq in Hs. }
  intros Hin. destruct (Hrun sched t [] ) with h err as [Hs Hl]; [|done|done].
  split.
  - intros h'. by rewrite Hnone.
  - intros h' err'. rewrite Hempty. by intros ?%elem_of_nil.
Qed.

End lifecycle.

(** *** On the test's collaborators *)

Import mock.

Lemma mock_keeps_length : @keeps_length World devices.
Proof.
  intros b w. simpl. unfold Read.
  destruct (closed w); [done|]. by destruct (script w) as [|[err|] rest].
Qed.

Lemma constructors_reject_unregistered_codec_witness :
  let c := track_constraints (media "VP9" 640 480 "" 0 0 100000) in
  let err := errorString "track: VP9 is not registered in media engine" in
  let r := newVideoTrack opts c (device []) in
  Forall (λ x, Name x ≠ "VP9") (codecs opts RTPCodecTypeVideo) ∧
  ctor_error r = Some err ∧ world (ctor_track r) = device [] ∧
  trace (ctor_track r) = [] ∧ loop (ctor_track r) = NotStarted.
Proof.
  intros c err r.
  assert (Forall (λ x, Name x ≠ "VP9") (codecs opts RTPCodecTypeVideo)) as Hno
    by (by repeat constructor).
  split; [exact Hno|].
  exact (proj1 (constructors_reject_unregistered_codec opts c (device [])) Hno).
Defined.

Lemma newTrack_takes_first_codec_witness :
  let opus := {| Name := "opus"; PayloadType := 111; Type_ := RTPCodecTypeAudio |} in
  let first := {| Name := "VP8"; PayloadType := 96; Type_ := RTPCodecTypeVideo |} in
  let second := {| Name := "VP8"; PayloadType := 100; Type_ := RTPCodecTypeVideo |} in
  Forall (λ y, Name y ≠ "VP8") [opus] ∧ Name first = "VP8" ∧
  newTrack ([opus] ++ first :: [second]) "VP8" (device []) =
    trackGenerator (PayloadType first) (rand_Uint32 (device [])).1
      (Driver_ID (rand_Uint32 (device [])).2)
      (RTPCodecType_String (Type_ first)) first (rand_Uint32 (device [])).2.
Proof.
  intros opus first second.
  assert (Forall (λ y, Name y ≠ "VP8") [opus]) as Hl by (by repeat constructor).
  assert (Name first = "VP8") as Hx by done.
  split; [exact Hl|]. split; [exact Hx|].
  exact (newTrack_takes_first_codec [opus] [second] first "VP8" (device []) Hl Hx).
Defined.

Lemma idle_goroutine_stays_idle_witness :
  let t := turn (OnEnded 1%nat
             (ctor_track (newVideoTrack opts video_constraints
                            (device [Some (errorString "device lost")])))) in
  let sched := [CallOnEnded 2%nat; Turn; CallStop; Turn] in
  idle (loop t) ∧
  loop (run sched t) = loop t ∧
  callbacks (run sched t) = callbacks t ∧
  read_sizes (run sched t) = read_sizes t ∧
  emitted (run sched t) = emitted t.
Proof.
  intros t sched.
  assert (idle (loop t)) as Hi by (intros buff; by vm_compute).
  split; [exact Hi|].
  exact (idle_goroutine_stays_idle t sched Hi).
Defined.

Lemma error_without_callback_is_lost_witness :
  let t := ctor_track (newVideoTrack opts video_constraints
                         (device [Some (errorString "device lost")])) in
  let buff := replicate 1024 Byte.x00 in
  let sched := [CallOnEnded 1%nat; Turn; CallStop; Turn] in
  loop t = Running buff ∧
  onErrorHandler t = None ∧
  loop (turn t) = Returned (errorString "device lost") ∧
  callbacks (run sched (turn t)) = callbacks t.
Proof.
  intros t buff sched.
  assert (loop t = Running buff) as Hl by (by vm_compute).
  assert (onErrorHandler t = None) as Hh by (by vm_compute).
  assert (loop (turn t) = Returned (errorString "device lost")) as Hr by (by vm_compute).
  split; [exact Hl|]. split; [exact Hh|]. split; [exact Hr|].
  exact (error_without_callback_is_lost t buff (errorString "device lost") sched Hl Hh Hr).
Defined.

Lemma Stop_does_not_end_loop_witness :
  let t := ctor_track (newVideoTrack opts video_constraints (device [])) in
  let buff := replicate 1024 Byte.x00 in
  loop t = Running buff ∧
  loop (Stop t) = Running buff ∧
  onErrorHandler (Stop t) = onErrorHandler t ∧
  read_sizes (turn (Stop t)) = read_sizes t ++ [length buff] ∧
  trace (Stop (Stop t)) =
    trace t ++ [EvClose; EvEncoderClose; EvClose; EvEncoderClose].
Proof.
  intros t buff.
  assert (loop t = Running buff) as Hl by (by vm_compute).
  split; [exact Hl|].
  exact (Stop_does_not_end_loop t buff Hl).
Defined.

Lemma audioTrack_emits_read_bytes_witness :
  let t := ctor_track (newAudioTrack opts audio_constraints (device [])) in
  let buff := replicate 1024 Byte.x00 in
  let s := {| Data := take (Z.to_nat 1024) buff; Samples := sampleSize t |} in
  track_kind t = AudioTrack ∧
  loop t = Running buff ∧
  Encoder_Read buff (world t) = (buff, 1024, None, world t) ∧
  0 ≤ 1024 ≤ Z.of_nat (length buff) ∧
  LocalTrack_WriteSample s (world t) = (None, world t) ∧
  loop (turn t) = Running buff ∧
  world (turn t) = world t ∧
  emitted (turn t) = emitted t ++ [s] ∧
  trace (turn t) = trace t ++ [EvRead (length buff) 1024 None; EvWriteSample s None] ∧
  callbacks (turn t) = callbacks t.
Proof.
  intros t buff s.
  assert (track_kind t = AudioTrack) as Hk by (by vm_compute).
  assert (loop t = Running buff) as Hl by (by vm_compute).
  assert (Encoder_Read buff (world t) = (buff, 1024, None, world t)) as Hr
    by (by vm_compute).
  assert (0 ≤ 1024 ≤ Z.of_nat (length buff)) as Hn
    by (unfold buff; rewrite length_replicate; lia).
  assert (LocalTrack_WriteSample s (world t) = (None, world t)) as Hw by done.
  split; [exact Hk|]. split; [exact Hl|]. split; [exact Hr|].
  split; [exact Hn|]. split; [exact Hw|].
  exact (audioTrack_emits_read_bytes t buff buff 1024 (world t) (world t) Hk Hl Hr Hn Hw).
Defined.

Lemma read_count_out_of_range_panics_witness :
  let c := faulty.track_constraints (media "MockVideo" 640 480 "" 0 0 100000) in
  let t := ctor_track (@newVideoTrack unit faulty.devices opts c tt) in
  let buff := replicate 1024 Byte.x00 in
  loop t = Running buff ∧
  @Encoder_Read unit faulty.devices buff (world t) = (buff, 1025, None, tt) ∧
  (1025 < 0 ∨ Z.of_nat (length buff) < 1025) ∧
  loop (@turn unit faulty.devices t) = Panicked "slice bounds out of range" ∧
  emitted (@turn unit faulty.devices t) = emitted t ∧
  callbacks (@turn unit faulty.devices t) = callbacks t.
Proof.
  intros c t buff.
  assert (loop t = Running buff) as Hl by (by vm_compute).
  assert (@Encoder_Read unit faulty.devices buff (world t) = (buff, 1025, None, tt))
    as Hr by (by vm_compute).
  assert (1025 < 0 ∨ Z.of_nat (length buff) < 1025) as Hn
    by (right; unfold buff; rewrite length_replicate; lia).
  split; [exact Hl|]. split; [exact Hr|]. split; [exact Hn|].
  exact (@read_count_out_of_range_panics unit faulty.devices t buff buff 1025 tt Hl Hr Hn).
Defined.

Lemma videoTrack_insufficient_buffer_witness :
  let t := ctor_track (newVideoTrack opts video_constraints
                         (device [Some (InsufficientBufferError 2048)])) in
  let buff := replicate 1024 Byte.x00 in
  let w := {| opened := true; closed := false; record_error := None; script := [] |} in
  track_kind t = VideoTrack ∧
  loop t = Running buff ∧
  Encoder_Read buff (world t) =
    (buff, 0, Some (InsufficientBufferError 2048), w) ∧
  0 ≤ 2048 ∧ is_int 2048 ∧
  callbacks (turn t) = callbacks t ∧
  emitted (turn t) = emitted t ∧
  ((2 * 2048 ≤ maxAlloc ∧
    loop (turn t) = Running (replicate (Z.to_nat (2 * 2048)) Byte.x00)) ∨
   (maxAlloc < 2 * 2048 ∧
    loop (turn t) = Panicked "makeslice: len out of range")).
Proof.
  intros t buff w.
  assert (track_kind t = VideoTrack) as Hk by (by vm_compute).
  assert (loop t = Running buff) as Hl by (by vm_compute).
  assert (Encoder_Read buff (world t) =
            (buff, 0, Some (InsufficientBufferError 2048), w)) as Hr
    by (by vm_compute).
  assert (0 ≤ 2048) as HR by lia.
  assert (is_int 2048) as Hi by (unfold is_int; lia).
  split; [exact Hk|]. split; [exact Hl|]. split; [exact Hr|].
  split; [exact HR|]. split; [exact Hi|].
  exact (videoTrack_insufficient_buffer t buff buff 0 2048 w Hk Hl Hr HR Hi).
Defined.

Lemma audioTrack_always_reads_1024_witness :
  let w := device [None; Some (InsufficientBufferError 4096)] in
  let sched := [Turn; CallOnEnded 1%nat; Turn; Turn; CallStop] in
  @keeps_length World devices ∧
  ctor_error (newAudioTrack opts audio_constraints w) = None ∧
  Forall (λ len, len = 1024%nat)
    (read_sizes (run sched (ctor_track (newAudioTrack opts audio_constraints w)))).
Proof.
  intros w sched.
  assert (ctor_error (newAudioTrack opts audio_constraints w) = None) as Hok
    by (by vm_compute).
  split; [exact mock_keeps_length|]. split; [exact Hok|].
  exact (audioTrack_always_reads_1024 opts audio_constraints w sched mock_keeps_length Hok).
Defined.

Lemma callbacks_go_to_registered_handlers_witness :
  let t := ctor_track (newVideoTrack opts video_constraints
                         (device [None; Some (errorString "device lost")])) in
  let sched := [CallOnEnded 1%nat; Turn; CallOnEnded 2%nat; Turn; CallOnEnded 3%nat] in
  onErrorHandler t = None ∧
  callbacks t = [] ∧
  (2%nat, errorString "device lost") ∈ callbacks (run sched t) ∧
  2%nat ∈ registered sched ∧
  loop (run sched t) = Returned (errorString "device lost").
Proof.
  intros t sched.
  assert (onErrorHandler t = None) as Hh by (by vm_compute).
  assert (callbacks t = []) as Hc by (by vm_compute).
  assert ((2%nat, errorString "device lost") ∈ callbacks (run sched t)) as Hin.
  { assert (callbacks (run sched t) = [(2%nat, errorString "device lost")]) as ->
      by (by vm_compute).
    by apply list_elem_of_singleton. }
  split; [exact Hh|]. split; [exact Hc|]. split; [exact Hin|].
  exact (callbacks_go_to_registered_handlers sched t 2%nat
           (errorString "device lost") Hh Hc Hin).
Defined.

End lifecycle_facts.

(** ** More on the sample count of the audio loop *)

Module sample_count_facts.
Import mediadevices conditions track_facts float_facts.

(** *** An integer of Go as a float64 *)

Lemma shr_fexp_exponent (m e : Z) (l : location) (r : shr_record) (e' : Z) :
  shr_fexp prec emax m e l = (r, e') →
  e' = Z.max e (Z.max (Zdigits2 m + e - 53) (-1074)).
Proof.
  unfold shr_fexp, shr. rewrite fexp_eq.
  destruct (Z.max (Zdigits2 m + e - 53) (-1074) - e) as [|k|k] eqn:Hk;
    intros [= <- <-]; lia.
Qed.

Lemma Zdigits2_succ (m : Z) : 0 < m → Zdigits2 (m + 1) ≤ Zdigits2 m + 1.
Proof.
  intros Hm. apply Zdigits2_le; [lia|].
  pose proof (Zdigits2_upper m Hm) as Hu.
  pose proof (Zdigits2_pos m Hm) as Hd.
  rewrite Z.pow_add_r, Z.pow_1_r by lia. lia.
Qed.

(** Rounding a mantissa of moderate size gives a finite value. *)
Lemma binary_round_finite (s : bool) (m : positive) (e : Z) :
  -1074 < dig m + e ≤ 1000 → e ≤ 971 →
  is_finite (binary_round prec emax s m e) = true.
Proof.
  intros Hmag He. unfold binary_round.
  pose proof (shl_align_spec m e (fexp prec emax (Z.pos (digits2_pos m) + e))) as Hs.
  destruct (shl_align m e _) as [mz ez]. destruct Hs as [Hez Hmz].
  assert (Zdigits2 (Z.pos mz) + ez = dig m + e) as Hd.
  { rewrite Hmz, Zdigits2_shl by lia. unfold dig. simpl Zdigits2. lia. }
  unfold binary_round_aux.
  destruct (shr_fexp prec emax (Z.pos mz) ez loc_Exact) as [r1 e1] eqn:H1.
  destruct (shr_fexp_pos (Z.pos mz) ez loc_Exact r1 e1) as [Hr1 Hd1];
    [lia|lia|done|].
  pose proof (shr_fexp_exponent _ _ _ _ _ H1) as He1.
  pose proof (round_nearest_even_bounds (shr_m r1) (loc_of_shr_record r1)) as Hrne.
  set (m2 := round_nearest_even (shr_m r1) (loc_of_shr_record r1)) in *.
  assert (Zdigits2 (shr_m r1) ≤ Zdigits2 m2) as Hlo by (apply Zdigits2_mono; lia).
  assert (Zdigits2 m2 ≤ Zdigits2 (shr_m r1) + 1) as Hhi.
  { etransitivity; [apply (Zdigits2_mono m2 (shr_m r1 + 1)); lia|].
    by apply Zdigits2_succ. }
  destruct (shr_fexp prec emax m2 e1 loc_Exact) as [r2 e2] eqn:H2.
  destruct (shr_fexp_pos m2 e1 loc_Exact r2 e2) as [Hr2 Hd2]; [lia|lia|done|].
  pose proof (shr_fexp_exponent _ _ _ _ _ H2) as He2.
  destruct (shr_m r2) as [|m'|m']; [done| |lia].
  unfold fexp, emin, prec, emax in *.
  destruct (e2 <=? 1024 - 53) eqn:Hle; [done|]. lia.
Qed.

Lemma of_int_finite (n : Z) : is_int n → is_finite (of_int n) = true.
Proof.
  intros [Hlo Hhi]. unfold of_int, binary_normalize.
  destruct n as [|p|p]; [done| |].
  - apply binary_round_finite; [|lia].
    pose proof (Zdigits2_pos (Z.pos p) ltac:(lia)) as H1.
    pose proof (Zdigits2_le (Z.pos p) 63 ltac:(lia) ltac:(lia)) as H2.
    unfold dig. simpl Zdigits2 in H1, H2. lia.
  - apply binary_round_finite; [|lia].
    pose proof (Zdigits2_pos (Z.pos p) ltac:(lia)) as H1.
    pose proof (Zdigits2_le (Z.pos p) 64 ltac:(lia) ltac:(lia)) as H2.
    unfold dig. simpl Zdigits2 in H1, H2. lia.
Qed.

Section sample_count.
Context {W : Type} `{Devices W}.

Lemma audio_sampleSize_no_latency (c : MediaTrackConstraints W) :
  prop.Latency (prop.Media_Audio (Media_ c)) = 0 →
  is_int (prop.SampleRate (prop.Media_Audio (Media_ c))) →
  audio_sampleSize c = 0.
Proof.
  intros Hl Hr. unfold audio_sampleSize. rewrite Hl.
  change (time.Seconds 0) with (S754_zero false).
  pose proof (of_int_finite _ Hr) as Hf.
  by destruct (of_int _) as [s|s| |s m e].
Qed.

(** X18. With the latency left at zero, as in the test's audio
    constraints, the sample count of the audio loop is 0 for every sample
    rate: every sample of such a track is handed to the sink with a sample
    count of 0. *)
Theorem audio_samples_without_latency (opts : MediaDevicesOptions)
    (c : MediaTrackConstraints W) (w : W) (sched : list action) :
  prop.Latency (prop.Media_Audio (Media_ c)) = 0 →
  is_int (prop.SampleRate (prop.Media_Audio (Media_ c))) →
  ctor_error (newAudioTrack opts c w) = None →
  Forall (λ s, Samples s = 0)
    (emitted (run sched (ctor_track (newAudioTrack opts c w)))).
Proof.
  intros Hl Hr Hok.
  destruct (run_annotated c sched _ (newAudioTrack_annotated opts c w Hok))
    as (_ & _ & He).
  by rewrite (audio_sampleSize_no_latency c Hl Hr) in He.
Qed.

End sample_count.

Import mock.

Lemma audio_samples_without_latency_witness :
  let c := track_constraints (media "MockAudio" 0 0 "" 48000 0 32000) in
  let sched := [Turn; Turn; CallStop; Turn] in
  prop.Latency (prop.Media_Audio (Media_ c)) = 0 ∧
  is_int (prop.SampleRate (prop.Media_Audio (Media_ c))) ∧
  ctor_error (newAudioTrack opts c (device [])) = None ∧
  Forall (λ s, Samples s = 0)
    (emitted (run sched (ctor_track (newAudioTrack opts c (device []))))).
Proof.
  intros c sched.
  assert (prop.Latency (prop.Media_Audio (Media_ c)) = 0) as Hl by done.
  assert (is_int (prop.SampleRate (prop.Media_Audio (Media_ c)))) as Hr
    by (unfold is_int; simpl; lia).
  assert (ctor_error (newAudioTrack opts c (device [])) = None) as Hok
    by (by vm_compute).
  split; [exact Hl|]. split; [exact Hr|]. split; [exact Hok|].
  exact (audio_samples_without_latency opts c (device []) sched Hl Hr Hok).
Defined.

End sample_count_facts.
